(** * ClickhouseWriter: the buffered multi-destination write coalescer

    A shallow embedding of [worker/src/services/ClickhouseWriter/index.ts].

    Conventions of the embedding.
    - JavaScript strings are [string]s; their [length] is counted in
      characters of that type and [toLowerCase] acts on the ASCII letters.
    - A record is a JavaScript object that the queue items, the array
      [recordsToWrite] and [truncateOversizedRecord] all reach through the
      same reference: records live in a [Heap] and are named by a location.
    - The backing store (the Prisma client) is an oracle threaded through an
      abstract world state.
    - A flush cycle runs to completion as one step: the awaits inside one
      cycle are not interleaved with other callers, and delays are dropped.
      The call of [addToQueue], which does not await the flush it starts,
      is also given in two parts: the writer at the return of the call,
      and the cycle that settles afterwards. *)

From Stdlib Require Import ZArith Ascii String.
From stdpp Require Import gmap strings list fin_maps.

Local Open Scope string_scope.
Local Open Scope Z_scope.

(** ** JavaScript values and strings *)

Module JS.

(** A thrown value.  An object is kept as far as the classifier looks at
    it: its [message] property, absent or a string, as the type [Error] of
    the retry callback has it. *)
Inductive Value :=
| Undefined
| Null
| Boolean (b : bool)
| Number (n : Z)
| Str (s : string)
| Object (message : option string).

Definition typeof (v : Value) : string :=
  match v with
  | Undefined => "undefined"
  | Null => "object"
  | Boolean _ => "boolean"
  | Number _ => "number"
  | Str _ => "string"
  | Object _ => "object"
  end.

Definition nonEmpty (s : string) : bool :=
  match s with EmptyString => false | String _ _ => true end.

(** [!!v] *)
Definition truthy (v : Value) : bool :=
  match v with
  | Undefined | Null => false
  | Boolean b => b
  | Number n => negb (n =? 0)
  | Str s => nonEmpty s
  | Object _ => true
  end.

Definition lowerChar (c : ascii) : ascii :=
  let n := N_of_ascii c in
  if ((65 <=? n) && (n <=? 90))%N then ascii_of_N (n + 32) else c.

Fixpoint toLowerCase (s : string) : string :=
  match s with
  | EmptyString => EmptyString
  | String c s' => String (lowerChar c) (toLowerCase s')
  end.

(** [s.includes(sub)] *)
Fixpoint includes (s sub : string) : bool :=
  if String.prefix sub s then true
  else match s with
       | EmptyString => false
       | String _ s' => includes s' sub
       end.

(** [s.length] *)
Definition len (s : string) : Z := Z.of_nat (String.length s).

(** [s.substring(0, n)] *)
Definition substring0 (n : Z) (s : string) : string :=
  String.substring 0 (Z.to_nat n) s.

End JS.

(** ** Error classification: the three predicates of the writer *)

Module ErrorClassifier.
Import JS.

(** [(error as Error).message?.toLowerCase() || ""], for an [error] that
    went through the guard [!error || typeof error !== "object"]. *)
Definition errorMessage (error : Value) : string :=
  match error with
  | Object (Some m) => toLowerCase m
  | _ => ""
  end.

(** The guard the three predicates start with:
    [!error || typeof error !== "object"]. *)
Definition notAnObject (error : Value) : bool :=
  negb (truthy error) || negb (String.eqb (typeof error) "object").

Definition isRetryableError (error : Value) : bool :=
  if notAnObject error then false
  else includes (errorMessage error) "socket hang up".

Definition isSizeError (error : Value) : bool :=
  if notAnObject error then false
  else includes (errorMessage error) "size of json object"
       && includes (errorMessage error) "extremely large"
       && includes (errorMessage error) "expected not greater than".

Definition isStringLengthError (error : Value) : bool :=
  if notAnObject error then false
  else includes (errorMessage error) "invalid string length".

(** The categories of the retry callback of [flush], in the order of its
    [if ... else if ...] chain.  The oversized-payload branch is also
    guarded by [!hasBeenTruncated]; that flag belongs to the cycle and is
    handled in [BatchWriter.retry]. *)
Inductive ErrorClass := Retryable | StringOverflow | OversizedPayload | Fatal.

Definition classify (error : Value) : ErrorClass :=
  if isRetryableError error then Retryable
  else if isStringLengthError error then StringOverflow
  else if isSizeError error then OversizedPayload
  else Fatal.

#[global] Instance ErrorClass_eq_dec : EqDecision ErrorClass.
Proof. solve_decision. Defined.

End ErrorClassifier.

(** ** Records and their truncation *)

Module RecordCodec.
Import JS.

(** A record to insert: the fields the writer reads.  A field that is
    absent, [null] or [undefined] is [None]. *)
Record RecordInsert := mkRecord {
  id : string;
  project_id : string;
  input : option string;
  output : option string;
  metadata : option (gmap string string)
}.

#[global] Instance RecordInsert_eq_dec : EqDecision RecordInsert.
Proof. solve_decision. Defined.

Definition maxFieldSize : Z := 1024 * 1024.
Definition keptPrefix : Z := 500 * 1024.
Definition truncationMessage : string :=
  "[TRUNCATED: Field exceeded size limit]".

(** The local helper [truncateField]. *)
Definition truncateField (value : option string) : option string :=
  match value with
  | None => None
  | Some v =>
      if negb (nonEmpty v) then None
      else if len v >? maxFieldSize
           then Some (substring0 keptPrefix v +:+ truncationMessage)
           else Some v
  end.

(** [record.input && record.input.length > maxFieldSize] *)
Definition oversized (field : option string) : bool :=
  match field with
  | Some v => nonEmpty v && (len v >? maxFieldSize)
  | None => false
  end.

(** One entry of the metadata loop. *)
Definition truncateEntry (value : string) : string :=
  if nonEmpty value && (len value >? maxFieldSize)
  then match truncateField (Some value) with
       | Some t => if nonEmpty t then t else ""
       | None => ""
       end
  else value.

(** The loop over [Object.entries(metadata)] that fills
    [truncatedMetadata]. *)
Definition truncateMetadata (m : gmap string string) : gmap string string :=
  map_fold (fun key value truncatedMetadata =>
              <[key := truncateEntry value]> truncatedMetadata) ∅ m.

(** What [truncateOversizedRecord] leaves in the object it was given: the
    three assignments, in the order of the source. *)
Definition truncatedFields (record : RecordInsert) : RecordInsert :=
  let r1 :=
    if oversized (input record)
    then mkRecord (id record) (project_id record)
           (truncateField (input record)) (output record) (metadata record)
    else record in
  let r2 :=
    if oversized (output r1)
    then mkRecord (id r1) (project_id r1)
           (input r1) (truncateField (output r1)) (metadata r1)
    else r1 in
  match metadata r2 with
  | Some m =>
      mkRecord (id r2) (project_id r2) (input r2) (output r2)
        (Some (truncateMetadata m))
  | None => r2
  end.

(** Records are objects: the store of all of them, by reference. *)
Definition Ref := positive.
Abbreviation Heap := (gmap positive RecordInsert).

(** [truncateOversizedRecord(tableName, record)]: assigns to the fields of
    the object [record] points at and returns [record] itself. *)
Definition truncateOversizedRecord (record : Ref) (h : Heap) : Heap * Ref :=
  (alter truncatedFields record h, record).

End RecordCodec.

(** ** The writer: queues, the attempt loop of a flush cycle, the scheduler *)

Module BatchWriter.
Import JS ErrorClassifier RecordCodec.

Inductive TableName :=
| Traces
| TracesNull
| Scores
| Observations
| ObservationsBatchStaging
| BlobStorageFileLog
| DatasetRunItems
| Events.

#[global] Instance TableName_eq_dec : EqDecision TableName.
Proof. solve_decision. Defined.

(** [ClickhouseWriterQueueItem]; [data] is a reference to the record. *)
Record QueueItem := mkItem {
  createdAt : Z;
  attempts : Z;
  data : Ref
}.

#[global] Instance QueueItem_eq_dec : EqDecision QueueItem.
Proof. solve_decision. Defined.

(** The three settings read from [env]. *)
Record Env := mkEnv {
  LANGFUSE_INGESTION_CLICKHOUSE_WRITE_BATCH_SIZE : Z;
  LANGFUSE_INGESTION_CLICKHOUSE_WRITE_INTERVAL_MS : Z;
  LANGFUSE_INGESTION_CLICKHOUSE_MAX_ATTEMPTS : Z
}.

(** Events added to the current span by the retry callback. *)
Inductive SpanEvent :=
| QueryRetry (attempt : nat)
| QuerySplitRetry (attempt : nat) (retry_count requeue_count : nat)
| QueryTruncateRetry (attempt : nat).

#[global] Instance SpanEvent_eq_dec : EqDecision SpanEvent.
Proof. solve_decision. Defined.

Definition isTruncateRetry (ev : SpanEvent) : bool :=
  match ev with QueryTruncateRetry _ => true | _ => false end.

(** How a promise settles. *)
Inductive Settled := Resolved | Rejected (error : Value).

Section WithStore.

(** The state of everything behind [prisma], and one upsert of one
    record into one table: the new state and the error thrown, if any. *)
Context {World : Type}.
Variable upsert : TableName -> RecordInsert -> World -> World * option Value.
Variable env : Env.

(** The writer object, the heap of records, the world, and what an
    observer of the writer sees: the payload of every call of
    [writeToClickhouse] (oldest first), the number of increments of the
    counter [langfuse.queue.clickhouse_writer.error] and of
    [langfuse.queue.clickhouse_writer.request], and the events the retry
    callback adds to the current span (kept whether or not a span is
    there).  Histograms and gauges are left out. *)
Record Writer := mkWriter {
  batchSize : Z;
  writeInterval : Z;
  maxAttempts : Z;
  queue : TableName -> list QueueItem;
  isIntervalFlushInProgress : bool;
  intervalId : option Z;
  heap : Heap;
  world : World;
  written : list (TableName * list RecordInsert);
  errorCounter : nat;
  requestCounter : nat;
  spanEvents : list SpanEvent
}.

Definition setQueue (t : TableName) (l : list QueueItem) (s : Writer) : Writer :=
  mkWriter (batchSize s) (writeInterval s) (maxAttempts s)
    (fun t' => if decide (t' = t) then l else queue s t')
    (isIntervalFlushInProgress s) (intervalId s) (heap s) (world s)
    (written s) (errorCounter s) (requestCounter s) (spanEvents s).

Definition setHeap (h : Heap) (s : Writer) : Writer :=
  mkWriter (batchSize s) (writeInterval s) (maxAttempts s) (queue s)
    (isIntervalFlushInProgress s) (intervalId s) h (world s)
    (written s) (errorCounter s) (requestCounter s) (spanEvents s).

Definition setWorld (w : World) (s : Writer) : Writer :=
  mkWriter (batchSize s) (writeInterval s) (maxAttempts s) (queue s)
    (isIntervalFlushInProgress s) (intervalId s) (heap s) w
    (written s) (errorCounter s) (requestCounter s) (spanEvents s).

Definition logWrite (t : TableName) (records : list RecordInsert) (s : Writer) : Writer :=
  mkWriter (batchSize s) (writeInterval s) (maxAttempts s) (queue s)
    (isIntervalFlushInProgress s) (intervalId s) (heap s) (world s)
    (written s ++ [(t, records)]) (errorCounter s) (requestCounter s)
    (spanEvents s).

Definition addEvent (ev : SpanEvent) (s : Writer) : Writer :=
  mkWriter (batchSize s) (writeInterval s) (maxAttempts s) (queue s)
    (isIntervalFlushInProgress s) (intervalId s) (heap s) (world s)
    (written s) (errorCounter s) (requestCounter s) (spanEvents s ++ [ev]).

Definition incrementError (s : Writer) : Writer :=
  mkWriter (batchSize s) (writeInterval s) (maxAttempts s) (queue s)
    (isIntervalFlushInProgress s) (intervalId s) (heap s) (world s)
    (written s) (S (errorCounter s)) (requestCounter s) (spanEvents s).

Definition incrementRequest (s : Writer) : Writer :=
  mkWriter (batchSize s) (writeInterval s) (maxAttempts s) (queue s)
    (isIntervalFlushInProgress s) (intervalId s) (heap s) (world s)
    (written s) (errorCounter s) (S (requestCounter s)) (spanEvents s).

Definition setInterval (flag : bool) (handle : option Z) (s : Writer) : Writer :=
  mkWriter (batchSize s) (writeInterval s) (maxAttempts s) (queue s)
    flag handle (heap s) (world s)
    (written s) (errorCounter s) (requestCounter s) (spanEvents s).

(** The constructor, with the timer handle [start] obtains. *)
Definition construct (w : World) (h : Heap) (handle : Z) : Writer :=
  mkWriter (LANGFUSE_INGESTION_CLICKHOUSE_WRITE_BATCH_SIZE env)
    (LANGFUSE_INGESTION_CLICKHOUSE_WRITE_INTERVAL_MS env)
    (LANGFUSE_INGESTION_CLICKHOUSE_MAX_ATTEMPTS env)
    (fun _ => []) false (Some handle) h w [] 0 0 [].

(** [writeRecordToPostgres]: an upsert for the three tables kept in
    PostgreSQL, nothing for the others. *)
Definition writeRecordToPostgres (table : TableName) (record : RecordInsert)
    (w : World) : World * option Value :=
  match table with
  | Traces | Observations | Scores => upsert table record w
  | TracesNull | ObservationsBatchStaging | BlobStorageFileLog
  | DatasetRunItems | Events => (w, None)
  end.

(** [writeToClickhouse]: the records one by one; the first error is
    thrown again. *)
Fixpoint writeToClickhouse (table : TableName) (records : list RecordInsert)
    (w : World) : World * option Value :=
  match records with
  | [] => (w, None)
  | record :: rest =>
      match writeRecordToPostgres table record w with
      | (w', Some err) => (w', Some err)
      | (w', None) => writeToClickhouse table rest w'
      end
  end.

(** The objects an array of references holds at this moment. *)
Definition deref (h : Heap) (refs : list Ref) : list RecordInsert :=
  omap (fun r => h !! r) refs.

(** [handleStringLengthError] *)
Definition handleStringLengthError (queueItems : list QueueItem) (h : Heap)
    : list QueueItem * list QueueItem * Heap :=
  match queueItems with
  | [item] =>
      let '(h', truncatedRecord) := truncateOversizedRecord (data item) h in
      ([mkItem (createdAt item) (attempts item) truncatedRecord], [], h')
  | _ =>
      let splitPoint := (length queueItems / 2)%nat in
      (take splitPoint queueItems, drop splitPoint queueItems, h)
  end.

(** The variables [flush] declares and its retry callback assigns. *)
Record Cycle := mkCycle {
  writer : Writer;
  queueItems : list QueueItem;
  recordsToWrite : list Ref;
  hasBeenTruncated : bool
}.

(** [recordsToWrite.map(record => truncateOversizedRecord(tableName, record))] *)
Fixpoint truncateAll (records : list Ref) (h : Heap) : Heap * list Ref :=
  match records with
  | [] => (h, [])
  | record :: rest =>
      let '(h1, r1) := truncateOversizedRecord record h in
      let '(h2, rs) := truncateAll rest h1 in
      (h2, r1 :: rs)
  end.

(** The [retry] callback handed to [backOff]. *)
Definition retry (tableName : TableName) (error : Value) (attemptNumber : nat)
    (c : Cycle) : bool * Cycle :=
  let isRetryable := isRetryableError error in
  let isSizeError := isSizeError error in
  let isStringLengthError := isStringLengthError error in
  if isRetryable then
    (true, mkCycle (addEvent (QueryRetry attemptNumber) (writer c))
             (queueItems c) (recordsToWrite c) (hasBeenTruncated c))
  else if isStringLengthError then
    let '(retryItems, requeueItems, h') :=
      handleStringLengthError (queueItems c) (heap (writer c)) in
    let s1 := setHeap h' (writer c) in
    let s2 :=
      if (0 <? length requeueItems)%nat
      then setQueue tableName (requeueItems ++ queue s1 tableName) s1
      else s1 in
    (true, mkCycle
             (addEvent (QuerySplitRetry attemptNumber (length retryItems)
                          (length requeueItems)) s2)
             retryItems (map data retryItems) (hasBeenTruncated c))
  else if isSizeError && negb (hasBeenTruncated c) then
    let '(h', records) := truncateAll (recordsToWrite c) (heap (writer c)) in
    (true, mkCycle
             (addEvent (QueryTruncateRetry attemptNumber)
                (setHeap h' (writer c)))
             (queueItems c) records true)
  else (false, c).

(** One call of [writeToClickhouse] on what [recordsToWrite] holds now. *)
Definition request (tableName : TableName) (c : Cycle) : option Value * Cycle :=
  let records := deref (heap (writer c)) (recordsToWrite c) in
  let '(w', result) := writeToClickhouse tableName records (world (writer c)) in
  (result, mkCycle (logWrite tableName records (setWorld w' (writer c)))
             (queueItems c) (recordsToWrite c) (hasBeenTruncated c)).

(** The loop of [backOff] (package exponential-backoff), with
    [remaining] attempts left of [numOfAttempts] after [attemptNumber]
    failures: the request; on an error the attempt is counted and the
    callback is asked; the error is thrown again when the callback says
    no or no attempt is left. *)
Fixpoint attemptLoop (tableName : TableName) (remaining attemptNumber : nat)
    (c : Cycle) : Settled * Cycle :=
  match remaining with
  | O => (Rejected (Object (Some "Something went wrong.")), c)
  | S remaining' =>
      match request tableName c with
      | (None, c1) => (Resolved, c1)
      | (Some e, c1) =>
          let '(shouldRetry, c2) := retry tableName e (S attemptNumber) c1 in
          if negb shouldRetry || (remaining' =? 0)%nat
          then (Rejected e, c2)
          else attemptLoop tableName remaining' (S attemptNumber) c2
      end
  end.

(** [numOfAttempts] as [backOff] reads it: at least one attempt. *)
Definition numOfAttempts : nat :=
  Z.to_nat (Z.max 1 (LANGFUSE_INGESTION_CLICKHOUSE_MAX_ATTEMPTS env)).

Definition backOff (tableName : TableName) (c : Cycle) : Settled * Cycle :=
  attemptLoop tableName numOfAttempts 0 c.

(** The [forEach] of the [catch] block of [flush]. *)
Fixpoint requeueOrDrop (tableName : TableName) (items : list QueueItem)
    (s : Writer) : Writer :=
  match items with
  | [] => s
  | item :: rest =>
      let s' :=
        if attempts item <? maxAttempts s
        then setQueue tableName
               (queue s tableName ++
                  [mkItem (createdAt item) (attempts item + 1) (data item)]) s
        else incrementError s in
      requeueOrDrop tableName rest s'
  end.

(** [entityQueue.splice(0, n)] removes [min n length] items, none for a
    negative [n]. *)
Definition deleteCount (fullQueue : bool) (s : Writer) (entityQueue : list QueueItem) : nat :=
  if fullQueue then length entityQueue else Z.to_nat (batchSize s).

(** [flush] *)
Definition flush (tableName : TableName) (fullQueue : bool) (s : Writer) : Writer :=
  let entityQueue := queue s tableName in
  if (length entityQueue =? 0)%nat then s
  else
    let n := deleteCount fullQueue s entityQueue in
    let items := take n entityQueue in
    let s0 := setQueue tableName (drop n entityQueue) s in
    match backOff tableName (mkCycle s0 items (map data items) false) with
    | (Resolved, c) => writer c
    | (Rejected _, c) => requeueOrDrop tableName (queueItems c) (writer c)
    end.

(** [addToQueue], called at time [now] with a record of the heap. *)
Definition addToQueue (tableName : TableName) (record : Ref) (now : Z)
    (s : Writer) : Writer :=
  let s1 := setQueue tableName
              (queue s tableName ++ [mkItem now 1 record]) s in
  if Z.of_nat (length (queue s1 tableName)) >=? batchSize s1
  then flush tableName false s1
  else s1.

Definition allTables : list TableName :=
  [Traces; TracesNull; Scores; Observations; ObservationsBatchStaging;
   BlobStorageFileLog; DatasetRunItems; Events].

(** [flushAll] *)
Definition flushAll (fullQueue : bool) (s : Writer) : Writer :=
  foldl (fun acc t => flush t fullQueue acc) (incrementRequest s) allTables.

(** One firing of the timer set up by [start]. *)
Definition intervalTick (s : Writer) : Writer :=
  if isIntervalFlushInProgress s then s
  else
    let s1 := flushAll false (setInterval true (intervalId s) s) in
    setInterval false (intervalId s1) s1.

(** [shutdown] *)
Definition shutdown (s : Writer) : Writer :=
  let s1 := match intervalId s with
            | Some _ => setInterval (isIntervalFlushInProgress s) None s
            | None => s
            end in
  flushAll true s1.

End WithStore.

Arguments Writer : clear implicits.
Arguments Cycle : clear implicits.

End BatchWriter.

(** * Vocabulary of the properties *)

Section Vocabulary.
Import JS ErrorClassifier RecordCodec BatchWriter.

(** The rule in the words of the specification: a field over the
    threshold becomes a prefix of itself followed by the marker, any other
    field stays. *)
Definition truncationRule (v : string) : string :=
  if len v >? maxFieldSize
  then substring0 keptPrefix v +:+ truncationMessage
  else v.


Context {World : Type}.
Variable upsert : TableName -> RecordInsert -> World -> World * option Value.

Implicit Types (s : Writer World) (c : Cycle World) (t : TableName).

(** The records a request hands to the store. *)
Definition payload c : list RecordInsert :=
  deref (heap (writer c)) (recordsToWrite c).

(** The item [flush] pushes for an item it gives another cycle. *)
Definition requeued (item : QueueItem) : QueueItem :=
  mkItem (createdAt item) (attempts item + 1) (data item).

(** The test of the catch block of [flush]. *)
Definition mayRetry s (item : QueueItem) : bool :=
  attempts item <? maxAttempts s.

(** The cycle [flush] starts on a queue that is not empty. *)
Definition startCycle t (fullQueue : bool) s : Cycle World :=
  let n := deleteCount fullQueue s (queue s t) in
  mkCycle (setQueue t (drop n (queue s t)) s)
    (take n (queue s t)) (map data (take n (queue s t))) false.

(** Hand-off: what was pulled is in flight or back at the front. *)
Definition handoff t (pulled rest : list QueueItem) c : Prop :=
  exists front,
    pulled = (queueItems c ++ front)%list
    /\ queue (writer c) t = (front ++ rest)%list.

(** What a cycle never touches. *)
Definition sameSettings s c : Prop :=
  maxAttempts (writer c) = maxAttempts s
  /\ batchSize (writer c) = batchSize s
  /\ errorCounter (writer c) = errorCounter s
  /\ intervalId (writer c) = intervalId s
  /\ requestCounter (writer c) = requestCounter s.

(** The queues of the other tables are as in [s]. *)
Definition otherQueues t s c : Prop :=
  forall t', t' <> t -> queue (writer c) t' = queue s t'.

(** Truncations after an oversized-payload error, counted by their span
    event. *)
Definition truncateRetries s : nat :=
  length (List.filter isTruncateRetry (spanEvents s)).

(** The flag is set exactly when one truncation was counted. *)
Definition truncatedOnce (base : nat) c : Prop :=
  truncateRetries (writer c) = (base + if hasBeenTruncated c then 1 else 0)%nat.

(** The store throws a retryable error on each of the next [k] writes of
    [records] and accepts the one after. *)
Fixpoint failsThenSucceeds (k : nat) t (records : list RecordInsert)
    (w : World) : bool :=
  match k with
  | O =>
      match (writeToClickhouse upsert t records w).2 with
      | None => true
      | Some _ => false
      end
  | S k' =>
      match writeToClickhouse upsert t records w with
      | (w', Some e) =>
          isRetryableError e && failsThenSucceeds k' t records w'
      | (_, None) => false
      end
  end.

(** Every upsert is accepted. *)
Definition healthy : Prop :=
  forall t record w, (upsert t record w).2 = None.

(** No queued item has more attempts than the writer allows. *)
Definition attemptsBounded s : Prop :=
  forall t, Forall (fun i => attempts i <= maxAttempts s) (queue s t).

(** What the full flush of a table hands to the store. *)
Definition drained s t : option (TableName * list RecordInsert) :=
  match queue s t with
  | [] => None
  | _ => Some (t, deref (heap s) (map data (queue s t)))
  end.

(** Every queue is shorter than a batch. *)
Definition shortQueues s : Prop :=
  forall t, Z.of_nat (length (queue s t)) < batchSize s.

(** The payload written is the payload of the items in flight. *)
Definition aligned c : Prop := recordsToWrite c = map data (queueItems c).

End Vocabulary.

(** * Scenarios *)

Module Scenario.
Import JS ErrorClassifier RecordCodec BatchWriter.

(** A store that answers its upserts from a script, one entry per upsert,
    and accepts every upsert once the script is used up. *)
Definition Script := list (option Value).

Definition scripted (_ : TableName) (_ : RecordInsert) (w : Script)
    : Script * option Value :=
  match w with
  | [] => ([], None)
  | outcome :: w' => (w', outcome)
  end.

Definition socketHangUp : Value := Object (Some "socket hang up").
Definition invalidStringLength : Value :=
  Object (Some "RangeError: Invalid string length").
Definition tooLarge : Value :=
  Object (Some "Size of JSON object is extremely large. Expected not greater than 1048576").
Definition refused : Value := Object (Some "connection refused").

Definition smallRecord (name : string) : RecordInsert :=
  mkRecord name "project" (Some "{}") (Some "{}") (Some {[ "k" := "v" ]}).

Definition records : Heap :=
  {[ 1%positive := smallRecord "a"; 2%positive := smallRecord "b";
     3%positive := smallRecord "c"; 4%positive := smallRecord "d" ]}.

Definition fresh (r : Ref) : QueueItem := mkItem 0 1 r.

Definition fourItems : list QueueItem :=
  [fresh 1%positive; fresh 2%positive; fresh 3%positive; fresh 4%positive].

(** Batches of two, three attempts. *)
Definition env23 : Env := mkEnv 2 1000 3.

(** A writer with the given heap and script and the given items queued
    for the table [Traces]. *)
Definition writerOf (env : Env) (script : Script) (h : Heap)
    (items : list QueueItem) : Writer Script :=
  setQueue Traces items (construct env script h 1).

(** A string of [n] characters. *)
Fixpoint filler (n : nat) : string :=
  match n with
  | O => EmptyString
  | S n' => String "x" (filler n')
  end.

(** A field one character over the threshold. *)
Definition bigField : string := filler (Z.to_nat (maxFieldSize + 1)).

Definition oversizedRecord (field : string) : RecordInsert :=
  mkRecord "big" "project" (Some field) None None.

(** One queued item whose record has the given input; the store rejects
    the write as too large, twice. *)
Definition oversizedWriter (field : string) : Writer Script :=
  writerOf env23 [Some tooLarge; Some tooLarge]
    {[ 1%positive := oversizedRecord field ]} [fresh 1%positive].

(** A store that accepts every upsert. *)
Definition accepting (_ : TableName) (_ : RecordInsert) (w : unit)
    : unit * option Value := (w, None).

(** Four items queued for [Traces], a healthy store. *)
Definition fullWriter : Writer unit :=
  setQueue Traces fourItems (construct env23 tt records 1).

(** One item queued for [Traces], a healthy store. *)
Definition oneItemWriter : Writer unit :=
  setQueue Traces [fresh 1%positive] (construct env23 tt records 1).

(** A cycle in flight on the four items. *)
Definition cycleOf (script : Script) : Cycle Script :=
  startCycle Traces true (writerOf env23 script records fourItems).

End Scenario.

(** * Vocabulary of the further properties *)

Section MoreVocabulary.
Import JS ErrorClassifier RecordCodec BatchWriter.

Context {World : Type}.
Variable upsert : TableName -> RecordInsert -> World -> World * option Value.

Implicit Types (s : Writer World) (c : Cycle World) (t : TableName).

(** The tables [writeRecordToPostgres] skips. *)
Definition clickhouseOnly t : bool :=
  match t with
  | Traces | Observations | Scores => false
  | TracesNull | ObservationsBatchStaging | BlobStorageFileLog
  | DatasetRunItems | Events => true
  end.

(** Every record written to the table is accepted. *)
Definition accepts t : Prop :=
  forall record w, (writeRecordToPostgres upsert t record w).2 = None.

(** Every upsert into the table throws an error the classifier does not
    know. *)
Definition alwaysFatal t : Prop :=
  forall record w,
    exists e, (upsert t record w).2 = Some e /\ classify e = Fatal.

(** Every queued item has between one and [maxAttempts] attempts. *)
Definition attemptsInRange s : Prop :=
  forall t, Forall (fun i => 1 <= attempts i <= maxAttempts s) (queue s t).

(** The fields of the writer a cycle has no business with. *)
Definition sameScheduler s c : Prop :=
  writeInterval (writer c) = writeInterval s
  /\ isIntervalFlushInProgress (writer c) = isIntervalFlushInProgress s.

(** The records of a cycle are those of [h0], some of them truncated, and
    only records named by [refs] differ. *)
Definition onlyTruncated (h0 : Heap) (refs : list Ref) c : Prop :=
  (forall l, l ∉ refs -> heap (writer c) !! l = h0 !! l)
  /\ (forall l, heap (writer c) !! l = h0 !! l
                \/ heap (writer c) !! l = truncatedFields <$> h0 !! l)
  /\ recordsToWrite c ⊆ refs
  /\ map data (queueItems c) ⊆ refs.

(** Every write of [records] to the table throws a retryable error. *)
Definition alwaysRetryable t (records : list RecordInsert) : Prop :=
  forall w,
    exists e, (writeToClickhouse upsert t records w).2 = Some e
              /\ isRetryableError e = true.

(** The item [addToQueue] makes of a record and the time of the call. *)
Definition enqueued (x : Ref * Z) : QueueItem := mkItem x.2 1 x.1.

End MoreVocabulary.

Section MoreVocabularyOfCalls.
Import JS ErrorClassifier RecordCodec BatchWriter.

Context {World : Type}.
Variable upsert : TableName -> RecordInsert -> World -> World * option Value.
Variable env : Env.

(** A run of calls of [addToQueue] for one table, each with its record
    and its time. *)
Definition enqueueAll (t : TableName) (calls : list (Ref * Z))
    (s : Writer World) : Writer World :=
  foldl (fun acc x => addToQueue upsert env t x.1 x.2 acc) s calls.

End MoreVocabularyOfCalls.

(** * Further scenarios *)

Module MoreScenarios.
Import JS ErrorClassifier RecordCodec BatchWriter Scenario.

(** A store that refuses every upsert with an error the classifier does
    not know. *)
Definition refusing (_ : TableName) (_ : RecordInsert) (w : unit)
    : unit * option Value := (w, Some refused).

(** A store that hangs up on every upsert. *)
Definition hangingUp (_ : TableName) (_ : RecordInsert) (w : unit)
    : unit * option Value := (w, Some socketHangUp).

(** No batch size. *)
Definition env03 : Env := mkEnv 0 1000 3.

(** An empty writer. *)
Definition emptyWriter : Writer unit := construct env23 tt records 1.

(** Four items queued for the table [Events]. *)
Definition eventsWriter : Writer unit :=
  setQueue Events fourItems (construct env23 tt records 1).

(** One item queued for [Traces]. *)
Definition singleWriter : Writer unit :=
  setQueue Traces [fresh 1%positive] (construct env23 tt records 1).

(** Four items queued for [Traces] and no batch size. *)
Definition unsizedWriter : Writer unit :=
  setQueue Traces fourItems (construct env03 tt records 1).

End MoreScenarios.

(** * The call of [addToQueue] and the flush it leaves behind *)

Section FireAndForget.
Import JS ErrorClassifier RecordCodec BatchWriter.

Context {World : Type}.
Variable upsert : TableName -> RecordInsert -> World -> World * option Value.
Variable env : Env.

(** [flush] up to the point where it gives the control back: an [async]
    function runs with its caller up to its first [await], which is
    [await backOff(...)], and [backOff] (package exponential-backoff)
    awaits itself before it makes the first request.  So the items are
    spliced out of the queue, the variables of the cycle are set, and
    nothing is written yet.  There is no cycle when the queue is empty. *)
Definition flushStart (tableName : TableName) (fullQueue : bool)
    (s : Writer World) : Writer World * option (Cycle World) :=
  let entityQueue := queue s tableName in
  if (length entityQueue =? 0)%nat then (s, None)
  else
    let n := deleteCount fullQueue s entityQueue in
    let items := take n entityQueue in
    let s0 := setQueue tableName (drop n entityQueue) s in
    (s0, Some (mkCycle s0 items (map data items) false)).

(** The rest of [flush], which runs after the caller has gone on: the
    attempt loop, and the [catch] block when the loop is rejected.  The
    [catch] block does not throw, so the promise of [flush] is fulfilled
    either way and the handler [addToQueue] gives to [.catch] is not
    run. *)
Definition flushSettle (tableName : TableName) (c : Cycle World)
    : Writer World :=
  match backOff upsert env tableName c with
  | (Resolved, c') => writer c'
  | (Rejected _, c') => requeueOrDrop tableName (queueItems c') (writer c')
  end.

(** The call of [addToQueue] itself: the writer as the caller finds it
    when the call returns (the call returns no value), and the cycle left
    in flight, if a flush was started.  The promise of [this.flush] is not
    awaited. *)
Definition addToQueueCall (tableName : TableName) (record : Ref) (now : Z)
    (s : Writer World) : Writer World * option (Cycle World) :=
  let s1 := setQueue tableName
              (queue s tableName ++ [mkItem now 1 record]) s in
  if Z.of_nat (length (queue s1 tableName)) >=? batchSize s1
  then flushStart tableName false s1
  else (s1, None).

End FireAndForget.

(** * A store that keeps what it is given *)

Module StoreScenarios.
Import JS ErrorClassifier RecordCodec BatchWriter Scenario.

(** The ids of the rows stored, oldest first. *)
Definition Rows := list string.

(** A store that takes one row and refuses every upsert after it. *)
Definition oneRowStore (_ : TableName) (r : RecordInsert) (w : Rows)
    : Rows * option Value :=
  match w with
  | [] => ([id r], None)
  | _ :: _ => (w, Some refused)
  end.

(** Batches of two, one attempt. *)
Definition env21 : Env := mkEnv 2 1000 1.

(** Two items queued for [Traces], an empty store. *)
Definition twoItemsWriter : Writer Rows :=
  setQueue Traces [fresh 1%positive; fresh 2%positive]
    (construct env21 [] records 1).

End StoreScenarios.

(** * Properties *)

(** ** Strings *)

Section StringFacts.
Import JS.

Lemma len_nonneg s : 0 <= len s.
Proof. unfold len. lia. Qed.

Lemma append_nil s : "" +:+ s = s.
Proof. reflexivity. Qed.

Lemma append_cons c s1 s2 : String c s1 +:+ s2 = String c (s1 +:+ s2).
Proof. reflexivity. Qed.

Lemma len_append s1 s2 : len (s1 +:+ s2) = len s1 + len s2.
Proof.
  unfold len. induction s1 as [|c s1 IH].
  - rewrite append_nil. cbn [String.length]. lia.
  - rewrite append_cons. cbn [String.length]. lia.
Qed.

Lemma length_substring_le n s : (String.length (String.substring 0 n s) <= n)%nat.
Proof.
  revert s. induction n as [|n IH]; intros [|c s];
    cbn [String.length String.substring]; try lia.
  specialize (IH s). lia.
Qed.

Lemma len_substring0_le n s : 0 <= n -> len (substring0 n s) <= n.
Proof.
  intros Hn. unfold len, substring0.
  pose proof (length_substring_le (Z.to_nat n) s). lia.
Qed.

Lemma nonEmpty_len s : nonEmpty s = (0 <? len s).
Proof.
  destruct s; unfold len; cbn [nonEmpty String.length]; [reflexivity|].
  symmetry. apply Z.ltb_lt. lia.
Qed.




End StringFacts.

(** ** The truncation rule *)

(** Turns a hypothesis on [>?] into the order it decides. *)
Ltac z_gtb E :=
  rewrite Z.gtb_ltb in E;
  first [apply Z.ltb_lt in E | apply Z.ltb_ge in E].

Section CodecFacts.
Import JS RecordCodec.

Lemma len_truncationMessage : len truncationMessage = 38.
Proof. reflexivity. Qed.

Lemma truncationRule_small v : len (truncationRule v) <= maxFieldSize.
Proof.
  unfold truncationRule. destruct (len v >? maxFieldSize) eqn:E.
  - rewrite len_append, len_truncationMessage.
    pose proof (len_substring0_le keptPrefix v).
    unfold keptPrefix, maxFieldSize in *. lia.
  - z_gtb E. exact E.
Qed.

Lemma truncationRule_idem v : truncationRule (truncationRule v) = truncationRule v.
Proof.
  pose proof (truncationRule_small v) as H.
  unfold truncationRule at 1.
  destruct (len (truncationRule v) >? maxFieldSize) eqn:E; [|reflexivity].
  z_gtb E. lia.
Qed.


Lemma oversized_Some v : oversized (Some v) = (len v >? maxFieldSize).
Proof.
  simpl. rewrite nonEmpty_len.
  destruct (len v >? maxFieldSize) eqn:E; [|apply andb_false_r].
  z_gtb E. rewrite andb_true_r. apply Z.ltb_lt.
  unfold maxFieldSize in E. lia.
Qed.

Lemma truncateField_oversized v :
  oversized (Some v) = true -> truncateField (Some v) = Some (truncationRule v).
Proof.
  intros H. pose proof H as H'. rewrite oversized_Some in H'.
  simpl in H. apply andb_true_iff in H as [Hne _].
  unfold truncateField, truncationRule. now rewrite Hne, H'.
Qed.

(** The guarded assignment of [input] and of [output]. *)
Lemma guarded_truncateField (field : option string) :
  (if oversized field then truncateField field else field)
  = truncationRule <$> field.
Proof.
  destruct field as [v|]; [|reflexivity].
  destruct (oversized (Some v)) eqn:E.
  - now rewrite truncateField_oversized.
  - rewrite oversized_Some in E. cbn [fmap option_fmap option_map].
    unfold truncationRule. now rewrite E.
Qed.

Lemma truncateEntry_rule v : truncateEntry v = truncationRule v.
Proof.
  unfold truncateEntry. change (nonEmpty v && (len v >? maxFieldSize)) with (oversized (Some v)).
  destruct (oversized (Some v)) eqn:E.
  - rewrite truncateField_oversized by exact E.
    rewrite oversized_Some in E. unfold truncationRule. rewrite E.
    destruct (substring0 keptPrefix v); reflexivity.
  - rewrite oversized_Some in E. unfold truncationRule. now rewrite E.
Qed.

(** The metadata loop maps the rule over the values. *)
Lemma truncateMetadata_fmap (m : gmap string string) :
  truncateMetadata m = truncationRule <$> m.
Proof.
  unfold truncateMetadata.
  apply (map_fold_weak_ind
           (fun (r : gmap string string) (m : gmap string string) =>
              r = truncationRule <$> m)).
  - now rewrite fmap_empty.
  - intros i x m' r Hi ->. now rewrite fmap_insert, truncateEntry_rule.
Qed.

Lemma truncatedFields_spec r :
  truncatedFields r =
  mkRecord (id r) (project_id r)
    (fmap (M:=option) truncationRule (input r))
    (fmap (M:=option) truncationRule (output r))
    (fmap (M:=option) (fmap (M:=gmap string) truncationRule) (metadata r)).
Proof.
  destruct r as [i p inp out md]. unfold truncatedFields. simpl.
  rewrite <- (guarded_truncateField inp), <- (guarded_truncateField out).
  destruct (oversized inp) eqn:E1; cbn [output]; rewrite ?E1;
    destruct (oversized out) eqn:E2; cbn [metadata]; rewrite ?E2;
    destruct md as [m|]; cbn; rewrite ?truncateMetadata_fmap; reflexivity.
Qed.

Lemma truncatedFields_idem r : truncatedFields (truncatedFields r) = truncatedFields r.
Proof.
  rewrite !truncatedFields_spec. simpl. f_equal.
  - destruct (input r); simpl; now rewrite ?truncationRule_idem.
  - destruct (output r); simpl; now rewrite ?truncationRule_idem.
  - destruct (metadata r) as [m|]; simpl; [|reflexivity].
    f_equal. rewrite <- map_fmap_compose. apply map_fmap_ext.
    intros k v _. simpl. apply truncationRule_idem.
Qed.



End CodecFacts.

(** ** The error classifier *)

Section ClassifierFacts.
Import JS ErrorClassifier.

Lemma notAnObject_Object m : notAnObject (Object m) = false.
Proof. reflexivity. Qed.

Lemma notAnObject_other v :
  v = Null \/ v = Undefined \/ typeof v <> "object" -> notAnObject v = true.
Proof.
  intros [-> | [-> | H]]; [reflexivity | reflexivity |].
  unfold notAnObject.
  destruct v; cbn in *; rewrite ?orb_true_r; try reflexivity; now elim H.
Qed.

Lemma classify_Fatal e :
  classify e = Fatal <->
  isRetryableError e = false /\ isStringLengthError e = false
  /\ isSizeError e = false.
Proof.
  unfold classify.
  destruct (isRetryableError e), (isStringLengthError e), (isSizeError e);
    intuition congruence.
Qed.

Lemma classify_StringOverflow e :
  classify e = StringOverflow <->
  isRetryableError e = false /\ isStringLengthError e = true.
Proof.
  unfold classify.
  destruct (isRetryableError e), (isStringLengthError e), (isSizeError e);
    intuition congruence.
Qed.

Lemma classify_OversizedPayload e :
  classify e = OversizedPayload <->
  isRetryableError e = false /\ isStringLengthError e = false
  /\ isSizeError e = true.
Proof.
  unfold classify.
  destruct (isRetryableError e), (isStringLengthError e), (isSizeError e);
    intuition congruence.
Qed.

Lemma classify_Retryable e :
  classify e = Retryable <-> isRetryableError e = true.
Proof.
  unfold classify.
  destruct (isRetryableError e), (isStringLengthError e), (isSizeError e);
    intuition congruence.
Qed.

Lemma notAnObject_Fatal v : notAnObject v = true -> classify v = Fatal.
Proof.
  intros H. apply classify_Fatal.
  unfold isRetryableError, isStringLengthError, isSizeError. now rewrite H.
Qed.

End ClassifierFacts.

(** ** The attempt loop *)

Section WriterFacts.
Import JS ErrorClassifier RecordCodec BatchWriter.

Context {World : Type}.
Variable upsert : TableName -> RecordInsert -> World -> World * option Value.
Variable env : Env.

Implicit Types (s : Writer World) (c : Cycle World) (t : TableName).

Lemma queue_setQueue_eq t l s : queue (setQueue t l s) t = l.
Proof. cbn. now rewrite decide_True. Qed.

Lemma queue_setQueue_ne t t' l s : t' <> t -> queue (setQueue t l s) t' = queue s t'.
Proof. intros H. cbn. now rewrite decide_False. Qed.

Lemma request_fst t c :
  (request upsert t c).1 = (writeToClickhouse upsert t (payload c) (world (writer c))).2.
Proof.
  unfold request, payload.
  now destruct (writeToClickhouse upsert t _ _) as [w' res].
Qed.

Lemma request_snd t c :
  (request upsert t c).2 =
  mkCycle
    (logWrite t (payload c)
       (setWorld (writeToClickhouse upsert t (payload c) (world (writer c))).1
          (writer c)))
    (queueItems c) (recordsToWrite c) (hasBeenTruncated c).
Proof.
  unfold request, payload.
  now destruct (writeToClickhouse upsert t _ _) as [w' res].
Qed.

(** What a request leaves as it was: everything but the world and the log
    of writes, which gains the payload. *)
Lemma request_frame t c :
  let c1 := (request upsert t c).2 in
  queueItems c1 = queueItems c
  /\ recordsToWrite c1 = recordsToWrite c
  /\ hasBeenTruncated c1 = hasBeenTruncated c
  /\ heap (writer c1) = heap (writer c)
  /\ queue (writer c1) = queue (writer c)
  /\ written (writer c1) = (written (writer c) ++ [(t, payload c)])%list
  /\ errorCounter (writer c1) = errorCounter (writer c)
  /\ spanEvents (writer c1) = spanEvents (writer c)
  /\ maxAttempts (writer c1) = maxAttempts (writer c)
  /\ batchSize (writer c1) = batchSize (writer c)
  /\ intervalId (writer c1) = intervalId (writer c)
  /\ requestCounter (writer c1) = requestCounter (writer c).
Proof. cbv zeta. rewrite request_snd. cbn. tauto. Qed.

(** *** The retry callback, branch by branch *)

Lemma retry_retryable t e n c :
  isRetryableError e = true ->
  retry t e n c =
  (true, mkCycle (addEvent (QueryRetry n) (writer c))
           (queueItems c) (recordsToWrite c) (hasBeenTruncated c)).
Proof. intros H. unfold retry. now rewrite H. Qed.

Lemma retry_fatal t e n c :
  classify e = Fatal -> retry t e n c = (false, c).
Proof.
  intros H. apply classify_Fatal in H as (H1 & H2 & H3).
  unfold retry. now rewrite H1, H2, H3.
Qed.

Lemma retry_oversized_again t e n c :
  classify e = OversizedPayload -> hasBeenTruncated c = true ->
  retry t e n c = (false, c).
Proof.
  intros H Hf. apply classify_OversizedPayload in H as (H1 & H2 & H3).
  unfold retry. now rewrite H1, H2, H3, Hf.
Qed.

Lemma truncateAll_snd refs (h : Heap) : (truncateAll refs h).2 = refs.
Proof.
  revert h. induction refs as [|r refs IH]; intros h; [reflexivity|].
  cbn. specialize (IH (alter truncatedFields r h)).
  destruct (truncateAll refs _) as [h2 rs]. cbn in *. now subst.
Qed.

(** Every record of the array is truncated, no other record changes. *)
Lemma truncateAll_lookup refs (h : Heap) (l : Ref) :
  (truncateAll refs h).1 !! l =
  if decide (l ∈ refs) then truncatedFields <$> h !! l else h !! l.
Proof.
  revert h. induction refs as [|r refs IH]; intros h.
  - cbn. now rewrite decide_False by apply not_elem_of_nil.
  - cbn. specialize (IH (alter truncatedFields r h)).
    destruct (truncateAll refs _) as [h2 rs]. cbn in *. rewrite IH.
    destruct (decide (r = l)) as [->|Hne].
    + rewrite lookup_alter_eq.
      rewrite (decide_True (P := l ∈ l :: refs)) by apply list_elem_of_here.
      case_decide; [|reflexivity].
      destruct (h !! l); cbn; [|reflexivity]. now rewrite truncatedFields_idem.
    + rewrite lookup_alter_ne by exact Hne.
      destruct (decide (l ∈ refs)) as [Hin|Hnin].
      * now rewrite decide_True by now apply list_elem_of_further.
      * rewrite decide_False; [reflexivity|].
        intros Hin. apply elem_of_cons in Hin as [->|Hin]; [now elim Hne | now elim Hnin].
Qed.

Lemma retry_oversized_first t e n c :
  classify e = OversizedPayload -> hasBeenTruncated c = false ->
  retry t e n c =
  (true, mkCycle
           (addEvent (QueryTruncateRetry n)
              (setHeap (truncateAll (recordsToWrite c) (heap (writer c))).1
                 (writer c)))
           (queueItems c) (recordsToWrite c) true).
Proof.
  intros H Hf. apply classify_OversizedPayload in H as (H1 & H2 & H3).
  unfold retry. rewrite H1, H2, H3, Hf. cbn.
  pose proof (truncateAll_snd (recordsToWrite c) (heap (writer c))) as Hs.
  destruct (truncateAll _ _) as [h' rs]. cbn in *. now subst.
Qed.

(** [handleStringLengthError] hands back the items it was given, split at
    the middle; only a lone item has its record truncated. *)
Lemma handleStringLengthError_spec (items : list QueueItem) (h : Heap) :
  let '(retryItems, requeueItems, h') := handleStringLengthError items h in
  match items with
  | [item] =>
      retryItems = [item] /\ requeueItems = []
      /\ h' = alter truncatedFields (data item) h
  | _ =>
      retryItems = take (length items / 2)%nat items
      /\ requeueItems = drop (length items / 2)%nat items
      /\ h' = h
  end.
Proof.
  destruct items as [|item [|item' rest]]; cbn; try tauto.
  destruct item; cbn. tauto.
Qed.

Lemma handleStringLengthError_app (items : list QueueItem) (h : Heap) :
  ((handleStringLengthError items h).1.1 ++ (handleStringLengthError items h).1.2)%list
  = items.
Proof.
  pose proof (handleStringLengthError_spec items h) as H.
  destruct (handleStringLengthError items h) as [[ri rq] h'].
  destruct items as [|item [|item' rest]]; destruct H as (-> & -> & _);
    cbn [fst snd]; [reflexivity | reflexivity | apply take_drop].
Qed.

Lemma retry_stringOverflow t e n c :
  classify e = StringOverflow ->
  retry t e n c =
  let r := handleStringLengthError (queueItems c) (heap (writer c)) in
  let s1 := setHeap r.2 (writer c) in
  (true, mkCycle
           (addEvent (QuerySplitRetry n (length r.1.1) (length r.1.2))
              (if (0 <? length r.1.2)%nat
               then setQueue t (r.1.2 ++ queue s1 t) s1 else s1))
           r.1.1 (map data r.1.1) (hasBeenTruncated c)).
Proof.
  intros H. apply classify_StringOverflow in H as (H1 & H2).
  unfold retry. rewrite H1, H2.
  now destruct (handleStringLengthError _ _) as [[ri rq] h'].
Qed.

(** *** The loop *)

Lemma attemptLoop_resolved t r a c :
  (request upsert t c).1 = None ->
  attemptLoop upsert t (S r) a c = (Resolved, (request upsert t c).2).
Proof. intros H. cbn. destruct (request upsert t c) as [[e|] c1]; now cbn in *. Qed.

Lemma attemptLoop_rejected t r a c e :
  (request upsert t c).1 = Some e ->
  attemptLoop upsert t (S r) a c =
  let rc := retry t e (S a) (request upsert t c).2 in
  if negb rc.1 || (r =? 0)%nat then (Rejected e, rc.2)
  else attemptLoop upsert t r (S a) rc.2.
Proof.
  intros H. cbn [attemptLoop].
  destruct (request upsert t c) as [[e'|] c1]; cbn in *; [|discriminate].
  injection H as ->. now destruct (retry t e (S a) c1) as [b c2].
Qed.

(** The loop ends at once when the callback answers no. *)
Lemma attemptLoop_stops t r a c e :
  (request upsert t c).1 = Some e ->
  retry t e (S a) (request upsert t c).2 = (false, (request upsert t c).2) ->
  attemptLoop upsert t (S r) a c = (Rejected e, (request upsert t c).2).
Proof. intros H Hr. rewrite (attemptLoop_rejected _ _ _ _ e H), Hr. reflexivity. Qed.

(** A property kept by each request and by each call of the callback is
    kept by the loop. *)
Lemma attemptLoop_invariant (P : Cycle World -> Prop) t :
  (forall c, P c -> P (request upsert t c).2) ->
  (forall e n c, P c -> P (retry t e n c).2) ->
  forall r a c, P c -> P (attemptLoop upsert t r a c).2.
Proof.
  intros Hreq Hretry. induction r as [|r IH]; intros a c Hc; [exact Hc|].
  destruct (request upsert t c).1 as [e|] eqn:E.
  - rewrite (attemptLoop_rejected _ _ _ _ e E). cbv zeta.
    pose proof (Hretry e (S a) _ (Hreq c Hc)) as H2.
    destruct (negb _ || _); [exact H2 | now apply IH].
  - rewrite attemptLoop_resolved by exact E. now apply Hreq.
Qed.

End WriterFacts.

(** ** A whole flush cycle *)

Section CycleFacts.
Import JS ErrorClassifier RecordCodec BatchWriter.

Context {World : Type}.
Variable upsert : TableName -> RecordInsert -> World -> World * option Value.
Variable env : Env.

Implicit Types (s : Writer World) (c : Cycle World) (t : TableName).

Lemma flush_empty t fullQueue s :
  queue s t = [] -> flush upsert env t fullQueue s = s.
Proof. intros H. unfold flush. now rewrite H. Qed.

Lemma flush_nonempty t fullQueue s :
  queue s t <> [] ->
  flush upsert env t fullQueue s =
  match backOff upsert env t (startCycle t fullQueue s) with
  | (Resolved, c) => writer c
  | (Rejected _, c) => requeueOrDrop t (queueItems c) (writer c)
  end.
Proof.
  intros H. unfold flush, startCycle.
  destruct (queue s t) as [|i q]; [now elim H | reflexivity].
Qed.

(** *** The catch block *)

Lemma requeueOrDrop_spec t items s :
  let s' := requeueOrDrop t items s in
  queue s' t = (queue s t ++ map requeued (List.filter (mayRetry s) items))%list
  /\ errorCounter s' =
     (errorCounter s
      + length (List.filter (fun i => negb (mayRetry s i)) items))%nat
  /\ (forall t', t' <> t -> queue s' t' = queue s t')
  /\ maxAttempts s' = maxAttempts s
  /\ batchSize s' = batchSize s
  /\ heap s' = heap s
  /\ world s' = world s
  /\ written s' = written s
  /\ spanEvents s' = spanEvents s
  /\ intervalId s' = intervalId s
  /\ requestCounter s' = requestCounter s.
Proof.
  cbv zeta. revert s. induction items as [|item items IH]; intros s.
  - cbn. rewrite app_nil_r, Nat.add_0_r. tauto.
  - cbn [requeueOrDrop List.filter]. unfold mayRetry at 1 3.
    match goal with |- context [requeueOrDrop t items ?s1] =>
      destruct (IH s1) as (H1 & H2 & H3 & H4 & H5 & H6 & H7 & H8 & H9 & H10 & H11)
    end.
    rewrite H1, H2, H4, H5, H6, H7, H8, H9, H10, H11. clear IH H1 H2.
    unfold mayRetry.
    destruct (attempts item <? maxAttempts s) eqn:E; cbn [negb].
    + rewrite queue_setQueue_eq. cbn [map]. rewrite <- app_assoc. cbn [app].
      repeat split; try reflexivity.
      intros t' Ht'. rewrite H3 by exact Ht'. now rewrite queue_setQueue_ne.
    + cbn. repeat split; try reflexivity; try lia.
      intros t' Ht'. now rewrite H3.
Qed.

Lemma handoff_request t pulled rest c :
  handoff t pulled rest c -> handoff t pulled rest (request upsert t c).2.
Proof.
  intros (front & H1 & H2).
  destruct (request_frame upsert t c) as (Hq & _ & _ & _ & Hqu & _).
  exists front. now rewrite Hq, Hqu.
Qed.

Lemma handoff_retry t pulled rest e n c :
  handoff t pulled rest c -> handoff t pulled rest (retry t e n c).2.
Proof.
  intros (front & H1 & H2). destruct (classify e) eqn:E.
  - apply classify_Retryable in E. rewrite retry_retryable by exact E.
    now exists front.
  - rewrite retry_stringOverflow by exact E. cbv zeta. cbn [snd queueItems writer].
    pose proof (handleStringLengthError_app (queueItems c) (heap (writer c))) as Happ.
    destruct (handleStringLengthError _ _) as [[ri rq] h']. cbn [fst snd] in *.
    exists (rq ++ front)%list. split.
    + rewrite H1, <- Happ. now rewrite <- app_assoc.
    + destruct rq as [|x rq]; cbn [length Nat.ltb Nat.leb].
      * exact H2.
      * cbn. rewrite decide_True by reflexivity.
        cbn in H2. now rewrite H2, <- app_assoc.
  - destruct (hasBeenTruncated c) eqn:F.
    + rewrite retry_oversized_again by assumption. now exists front.
    + rewrite retry_oversized_first by assumption. now exists front.
  - rewrite retry_fatal by exact E. now exists front.
Qed.

Lemma handoff_loop t pulled rest r a c :
  handoff t pulled rest c -> handoff t pulled rest (attemptLoop upsert t r a c).2.
Proof.
  apply (attemptLoop_invariant upsert (handoff t pulled rest)).
  - intros c'. apply handoff_request.
  - intros e n c'. apply handoff_retry.
Qed.

Lemma sameSettings_loop t s r a c :
  sameSettings s c -> sameSettings s (attemptLoop upsert t r a c).2.
Proof.
  apply (attemptLoop_invariant upsert (sameSettings s)).
  - intros c' (H1 & H2 & H3 & H4 & H5).
    destruct (request_frame upsert t c')
      as (_ & _ & _ & _ & _ & _ & He & _ & Hm & Hb & Hi & Hr).
    unfold sameSettings. now rewrite He, Hm, Hb, Hi, Hr.
  - intros e n c' H. unfold retry.
    destruct (isRetryableError e); [exact H|].
    destruct (isStringLengthError e).
    + destruct (handleStringLengthError _ _) as [[ri rq] h'].
      destruct (0 <? length rq)%nat; exact H.
    + destruct (isSizeError e && negb (hasBeenTruncated c')); [|exact H].
      destruct (truncateAll _ _) as [h' rs]. exact H.
Qed.

Lemma otherQueues_loop t s r a c :
  otherQueues t s c -> otherQueues t s (attemptLoop upsert t r a c).2.
Proof.
  apply (attemptLoop_invariant upsert (otherQueues t s)).
  - intros c' H t' Ht'.
    destruct (request_frame upsert t c') as (_ & _ & _ & _ & Hqu & _).
    rewrite Hqu. now apply H.
  - intros e n c' H t' Ht'. unfold retry.
    destruct (isRetryableError e); [now apply H|].
    destruct (isStringLengthError e).
    + destruct (handleStringLengthError _ _) as [[ri rq] h'].
      destruct (0 <? length rq)%nat; cbn; [|now apply H].
      rewrite decide_False by exact Ht'. now apply H.
    + destruct (isSizeError e && negb (hasBeenTruncated c')); [|now apply H].
      destruct (truncateAll _ _) as [h' rs]. now apply H.
Qed.

Lemma truncateRetries_addEvent ev s :
  truncateRetries (addEvent ev s) =
  (truncateRetries s + if isTruncateRetry ev then 1 else 0)%nat.
Proof.
  unfold truncateRetries. cbn [spanEvents addEvent].
  rewrite List.filter_app, length_app. cbn [List.filter].
  destruct (isTruncateRetry ev); reflexivity.
Qed.

Lemma truncatedOnce_retry t base e n c :
  truncatedOnce base c -> truncatedOnce base (retry t e n c).2.
Proof.
  unfold truncatedOnce. intros H. destruct (classify e) eqn:E.
  - apply classify_Retryable in E. rewrite retry_retryable by exact E.
    cbn [snd writer hasBeenTruncated]. rewrite truncateRetries_addEvent. cbn. lia.
  - rewrite retry_stringOverflow by exact E. cbv zeta.
    cbn [snd writer hasBeenTruncated]. rewrite truncateRetries_addEvent.
    cbn [isTruncateRetry]. rewrite Nat.add_0_r, <- H.
    destruct (0 <? _)%nat; reflexivity.
  - destruct (hasBeenTruncated c) eqn:F.
    + rewrite retry_oversized_again by assumption. cbn. now rewrite F.
    + rewrite retry_oversized_first by assumption.
      cbn [snd writer hasBeenTruncated]. rewrite truncateRetries_addEvent.
      cbn [isTruncateRetry]. unfold truncateRetries in *. cbn in *. lia.
  - rewrite retry_fatal by exact E. exact H.
Qed.

Lemma truncatedOnce_loop t base r a c :
  truncatedOnce base c -> truncatedOnce base (attemptLoop upsert t r a c).2.
Proof.
  apply (attemptLoop_invariant upsert (truncatedOnce base)).
  - intros c' H. unfold truncatedOnce in *.
    destruct (request_frame upsert t c') as (_ & _ & Hf & _ & _ & _ & _ & Hs & _).
    unfold truncateRetries in *. now rewrite Hs, Hf.
  - intros e n c'. apply truncatedOnce_retry.
Qed.

(** *** The number of writes of a cycle *)

Lemma written_retry t e n c : written (writer (retry t e n c).2) = written (writer c).
Proof.
  unfold retry.
  destruct (isRetryableError e); [reflexivity|].
  destruct (isStringLengthError e).
  - destruct (handleStringLengthError _ _) as [[ri rq] h'].
    destruct (0 <? length rq)%nat; reflexivity.
  - destruct (isSizeError e && negb (hasBeenTruncated c)); [|reflexivity].
    destruct (truncateAll _ _) as [h' rs]. reflexivity.
Qed.

Lemma attemptLoop_writes t r a c :
  (length (written (writer (attemptLoop upsert t r a c).2))
   <= length (written (writer c)) + r)%nat.
Proof.
  revert a c. induction r as [|r IH]; intros a c; [cbn; lia|].
  destruct (request_frame upsert t c) as (_ & _ & _ & _ & _ & Hw & _).
  destruct (request upsert t c).1 as [e|] eqn:E.
  - rewrite (attemptLoop_rejected upsert _ _ _ _ e E). cbv zeta.
    pose proof (written_retry t e (S a) (request upsert t c).2) as Hr.
    destruct (negb _ || _).
    + cbn [snd]. rewrite Hr, Hw, length_app. cbn. lia.
    + specialize (IH (S a) (retry t e (S a) (request upsert t c).2).2).
      rewrite Hr, Hw, length_app in IH. cbn in IH. lia.
  - rewrite attemptLoop_resolved by exact E. cbn [snd].
    rewrite Hw, length_app. cbn. lia.
Qed.

End CycleFacts.

(** ** Transient failures *)

Section TransientFacts.
Import JS ErrorClassifier RecordCodec BatchWriter.

Context {World : Type}.
Variable upsert : TableName -> RecordInsert -> World -> World * option Value.
Variable env : Env.

Implicit Types (s : Writer World) (c : Cycle World) (t : TableName).

Lemma healthy_write t records w :
  healthy upsert -> (writeToClickhouse upsert t records w).2 = None.
Proof.
  intros H. revert w. induction records as [|r rs IH]; intros w; [reflexivity|].
  cbn [writeToClickhouse].
  assert (Hr : (writeRecordToPostgres upsert t r w).2 = None).
  { unfold writeRecordToPostgres. destruct t; first [apply H | reflexivity]. }
  destruct (writeRecordToPostgres upsert t r w) as [w' [e|]];
    cbn in Hr; [discriminate | apply IH].
Qed.

Lemma attemptLoop_transient k :
  forall t r a c,
    failsThenSucceeds upsert k t (payload c) (world (writer c)) = true ->
    (k < r)%nat ->
    let out := attemptLoop upsert t r a c in
    out.1 = Resolved
    /\ queueItems out.2 = queueItems c
    /\ recordsToWrite out.2 = recordsToWrite c
    /\ heap (writer out.2) = heap (writer c)
    /\ queue (writer out.2) = queue (writer c)
    /\ written (writer out.2)
       = (written (writer c) ++ replicate (S k) (t, payload c))%list
    /\ errorCounter (writer out.2) = errorCounter (writer c)
    /\ maxAttempts (writer out.2) = maxAttempts (writer c)
    /\ batchSize (writer out.2) = batchSize (writer c).
Proof.
  induction k as [|k IH]; intros t r a c Hk Hlt; cbv zeta.
  - destruct r as [|r]; [lia|]. cbn [failsThenSucceeds] in Hk.
    assert (E : (request upsert t c).1 = None).
    { rewrite request_fst. now destruct (writeToClickhouse _ _ _ _).2. }
    rewrite attemptLoop_resolved by exact E. cbn [fst snd].
    destruct (request_frame upsert t c)
      as (H1 & H2 & _ & H4 & H5 & H6 & H7 & _ & H9 & H10 & _).
    cbn [replicate]. tauto.
  - destruct r as [|r]; [lia|]. cbn [failsThenSucceeds] in Hk.
    destruct (writeToClickhouse upsert t (payload c) (world (writer c)))
      as [w' [e|]] eqn:Ew; [|discriminate].
    apply andb_true_iff in Hk as [He Hk].
    assert (E : (request upsert t c).1 = Some e).
    { rewrite request_fst. now rewrite Ew. }
    rewrite (attemptLoop_rejected upsert _ _ _ _ e E). cbv zeta.
    rewrite retry_retryable by exact He. cbn [fst snd negb orb].
    destruct r as [|r]; [lia|]. cbn [Nat.eqb].
    rewrite request_snd, Ew. cbn [fst].
    match goal with |- context [attemptLoop upsert t (S r) (S a) ?c2] =>
      destruct (IH t (S r) (S a) c2) as (H1 & H2 & H3 & H4 & H5 & H6 & H7 & H8 & H9);
        [exact Hk | lia |]
    end.
    rewrite H1, H2, H3, H4, H5, H6, H7, H8, H9. cbn.
    repeat split; try reflexivity.
    unfold payload. cbn. now rewrite <- app_assoc.
Qed.

Lemma numOfAttempts_pos : (0 < numOfAttempts env)%nat.
Proof. unfold numOfAttempts. lia. Qed.

(** A cycle whose write is accepted after [k] retryable failures. *)
Lemma flush_transient t fullQueue s k :
  queue s t <> [] ->
  let n := deleteCount fullQueue s (queue s t) in
  let records := deref (heap s) (map data (take n (queue s t))) in
  failsThenSucceeds upsert k t records (world s) = true ->
  (k < numOfAttempts env)%nat ->
  let s' := flush upsert env t fullQueue s in
  written s' = (written s ++ replicate (S k) (t, records))%list
  /\ queue s' t = drop n (queue s t)
  /\ (forall t', t' <> t -> queue s' t' = queue s t')
  /\ errorCounter s' = errorCounter s
  /\ heap s' = heap s
  /\ maxAttempts s' = maxAttempts s
  /\ batchSize s' = batchSize s
  /\ intervalId s' = intervalId s.
Proof.
  intros Hne n records Hk Hlt. cbv zeta.
  rewrite flush_nonempty by exact Hne. unfold backOff.
  pose proof (sameSettings_loop upsert t s (numOfAttempts env) 0
                (startCycle t fullQueue s)) as Hsame.
  destruct (attemptLoop_transient k t (numOfAttempts env) 0
              (startCycle t fullQueue s))
    as (H1 & H2 & H3 & H4 & H5 & H6 & H7 & H8 & H9); [exact Hk | exact Hlt |].
  destruct (attemptLoop upsert t _ _ _) as [out c]. cbn [fst snd] in *. subst out.
  destruct Hsame as (_ & _ & _ & Hi & _); [repeat split|].
  rewrite H4, H5, H6, H7, H8, H9, Hi. cbn.
  rewrite decide_True by reflexivity.
  repeat split; try reflexivity.
  intros t' Ht'. now rewrite decide_False.
Qed.

End TransientFacts.

(** ** The claims about one attempt *)

Section AttemptClaims.
Import JS ErrorClassifier RecordCodec BatchWriter.

Context {World : Type}.
Variable upsert : TableName -> RecordInsert -> World -> World * option Value.
Variable env : Env.

Implicit Types (s : Writer World) (c : Cycle World) (t : TableName).

(** C6. The classifier is a function of the thrown value alone.  An error
    whose lower-cased message has none of the known signatures (the
    network phrase, the invalid-string-length phrase, the three
    too-large phrases together) is Fatal, and an attempt that fails with
    it ends the loop there: the cycle is left as the failed request left
    it, with no retry, split or truncation. *)
Theorem unmatched_error_is_fatal (e : Value) :
  (forall m, e = Object (Some m) ->
     includes (toLowerCase m) "socket hang up" = false
     /\ includes (toLowerCase m) "invalid string length" = false
     /\ includes (toLowerCase m) "size of json object"
        && includes (toLowerCase m) "extremely large"
        && includes (toLowerCase m) "expected not greater than" = false) ->
  classify e = Fatal
  /\ forall t remaining attemptNumber c,
       (request upsert t c).1 = Some e ->
       let c1 := (request upsert t c).2 in
       attemptLoop upsert t (S remaining) attemptNumber c = (Rejected e, c1)
       /\ queueItems c1 = queueItems c
       /\ recordsToWrite c1 = recordsToWrite c
       /\ hasBeenTruncated c1 = hasBeenTruncated c
       /\ heap (writer c1) = heap (writer c)
       /\ queue (writer c1) = queue (writer c)
       /\ written (writer c1) = (written (writer c) ++ [(t, payload c)])%list
       /\ spanEvents (writer c1) = spanEvents (writer c).
Proof.
  intros Hm.
  assert (Hf : classify e = Fatal).
  { destruct e as [| | b | n | str | [m|]];
      try (apply notAnObject_Fatal, notAnObject_other; cbn;
           first [left; reflexivity | right; left; reflexivity
                 | right; right; discriminate]);
      [|reflexivity].
    destruct (Hm m eq_refl) as (H1 & H2 & H3).
    apply classify_Fatal.
    unfold isRetryableError, isStringLengthError, isSizeError.
    rewrite notAnObject_Object. cbn [errorMessage]. now rewrite H1, H2, H3. }
  split; [exact Hf|]. intros t remaining a c E. cbv zeta.
  rewrite (attemptLoop_stops upsert t remaining a c e E)
    by now apply retry_fatal.
  destruct (request_frame upsert t c) as (H1 & H2 & H3 & H4 & H5 & H6 & _ & H8 & _).
  tauto.
Qed.

(** C10. For a thrown value that is [null], [undefined] or not an object,
    the three predicates answer no, the value is Fatal, and the attempt
    loop ends at that failure with no retry, split or truncation. *)
Theorem non_object_error_is_fatal (v : Value) :
  v = Null \/ v = Undefined \/ typeof v <> "object" ->
  isRetryableError v = false
  /\ isStringLengthError v = false
  /\ isSizeError v = false
  /\ classify v = Fatal
  /\ forall t remaining attemptNumber c,
       (request upsert t c).1 = Some v ->
       let c1 := (request upsert t c).2 in
       attemptLoop upsert t (S remaining) attemptNumber c = (Rejected v, c1)
       /\ queueItems c1 = queueItems c
       /\ recordsToWrite c1 = recordsToWrite c
       /\ hasBeenTruncated c1 = hasBeenTruncated c
       /\ heap (writer c1) = heap (writer c)
       /\ queue (writer c1) = queue (writer c)
       /\ spanEvents (writer c1) = spanEvents (writer c).
Proof.
  intros Hv. apply notAnObject_other in Hv.
  pose proof (notAnObject_Fatal v Hv) as Hf.
  destruct (proj1 (classify_Fatal v) Hf) as (H1 & H2 & H3).
  repeat (split; [assumption|]).
  intros t remaining a c E. cbv zeta.
  rewrite (attemptLoop_stops upsert t remaining a c v E)
    by now apply retry_fatal.
  destruct (request_frame upsert t c) as (F1 & F2 & F3 & F4 & F5 & _ & _ & F8 & _).
  tauto.
Qed.

(** C1, as amended.  When an attempt fails with a string-overflow error
    the callback asks for another attempt.  A batch of [n > 1] items keeps
    its first [n / 2] items, in order, and the other [n - n / 2] go to the
    front of the queue of the table; a batch of one item is not split, the
    record of that item is truncated.  The loop goes on with the retained
    items while an attempt is left; when the failure is that of the last
    attempt allowed the split or the truncation is made all the same and
    the loop ends, rejected, with the retained items.  A batch of four
    keeps two and gives two back. *)
Theorem string_overflow_splits_or_truncates t remaining attemptNumber c0 e :
  (request upsert t c0).1 = Some e ->
  classify e = StringOverflow ->
  let items := queueItems c0 in
  let n := length items in
  let c' := (retry t e (S attemptNumber) (request upsert t c0).2).2 in
  attemptLoop upsert t (S (S remaining)) attemptNumber c0
  = attemptLoop upsert t (S remaining) (S attemptNumber) c'
  /\ attemptLoop upsert t 1 attemptNumber c0 = (Rejected e, c')
  /\ recordsToWrite c' = map data (queueItems c')
  /\ ((1 < n)%nat ->
      queueItems c' = take (n / 2) items
      /\ queue (writer c') t = (drop (n / 2) items ++ queue (writer c0) t)%list
      /\ length (take (n / 2) items) = (n / 2)%nat
      /\ length (drop (n / 2) items) = (n - n / 2)%nat
      /\ heap (writer c') = heap (writer c0))
  /\ (n = 1%nat ->
      queueItems c' = items
      /\ queue (writer c') t = queue (writer c0) t
      /\ forall l,
           heap (writer c') !! l =
           if decide (l ∈ map data items)
           then truncatedFields <$> heap (writer c0) !! l
           else heap (writer c0) !! l)
  /\ (n = 4%nat ->
      length (queueItems c') = 2%nat
      /\ exists requeue,
           length requeue = 2%nat
           /\ items = (queueItems c' ++ requeue)%list
           /\ queue (writer c') t = (requeue ++ queue (writer c0) t)%list).
Proof.
  intros E Hc. cbv zeta.
  rewrite !(attemptLoop_rejected upsert _ _ _ _ e E). cbv zeta.
  rewrite retry_stringOverflow by exact Hc. cbv zeta. cbn [fst snd negb orb Nat.eqb].
  destruct (request_frame upsert t c0) as (Hq & _ & _ & Hh & Hqu & _).
  rewrite Hq, Hh.
  pose proof (handleStringLengthError_spec (queueItems c0) (heap (writer c0))) as Hs.
  destruct (handleStringLengthError _ _) as [[ri rq] h']. cbn [fst snd].
  cbn [recordsToWrite queueItems writer].
  do 3 (split; [reflexivity|]).
  destruct (queueItems c0) as [|i1 [|i2 rest]] eqn:Eitems.
  - destruct Hs as (-> & -> & ->). cbn.
    repeat split; try (intros; lia); try discriminate.
  - destruct Hs as (-> & -> & ->). cbn [length Nat.ltb Nat.leb].
    split; [intros; cbn in *; lia|].
    split; [|cbn; discriminate].
    intros _. cbn [queueItems writer addEvent setHeap queue heap].
    rewrite Hqu. repeat split; try reflexivity.
    intros l. cbn [map]. destruct (decide (l = data i1)) as [->|Hne].
    + rewrite lookup_alter_eq.
      now rewrite decide_True by apply list_elem_of_here.
    + rewrite lookup_alter_ne by congruence.
      rewrite decide_False; [reflexivity|].
      intros Hin. apply list_elem_of_singleton in Hin. contradiction.
  - destruct Hs as (-> & -> & ->).
    set (items := i1 :: i2 :: rest) in *.
    assert (Hlen : (2 <= length items)%nat) by (cbn; lia).
    assert (Hhalf : (length items / 2 < length items)%nat)
      by (apply Nat.div_lt; lia).
    assert (Hdrop : (0 <? length (drop (length items / 2) items))%nat = true).
    { apply Nat.ltb_lt. rewrite length_drop. lia. }
    rewrite Hdrop. cbn [queueItems writer addEvent setHeap setQueue queue heap].
    rewrite decide_True by reflexivity. rewrite Hqu.
    split; [|split].
    + intros _. rewrite length_take, length_drop.
      repeat split; try reflexivity. lia.
    + intros H1. cbn in H1. lia.
    + intros H4. rewrite length_take, H4. split; [reflexivity|].
      exists (drop (4 / 2) items). rewrite length_drop, H4.
      repeat split; try reflexivity; try (now rewrite take_drop).
Qed.

(** C2, as amended.  Truncation after an oversized-payload error happens
    at most once in a cycle.  The first such failure truncates every
    record in flight, sets the flag and asks for another attempt: the loop
    goes on with the truncated records while an attempt is left, and when
    the failure is that of the last attempt allowed the records are
    truncated all the same and the loop ends, rejected.  A later such
    failure, the flag being set, ends the loop without truncating or
    retrying.  A cycle makes at most [numOfAttempts] writes. *)
Theorem oversized_truncates_once t fullQueue s :
  (truncateRetries (flush upsert env t fullQueue s) <= truncateRetries s + 1)%nat
  /\ (length (written (flush upsert env t fullQueue s))
      <= length (written s) + numOfAttempts env)%nat
  /\ forall remaining attemptNumber c0 e,
       (request upsert t c0).1 = Some e ->
       classify e = OversizedPayload ->
       let c1 := (request upsert t c0).2 in
       let c' := (retry t e (S attemptNumber) c1).2 in
       if hasBeenTruncated c0
       then attemptLoop upsert t (S remaining) attemptNumber c0 = (Rejected e, c1)
            /\ heap (writer c1) = heap (writer c0)
            /\ truncateRetries (writer c1) = truncateRetries (writer c0)
       else attemptLoop upsert t (S (S remaining)) attemptNumber c0
            = attemptLoop upsert t (S remaining) (S attemptNumber) c'
            /\ attemptLoop upsert t 1 attemptNumber c0 = (Rejected e, c')
            /\ hasBeenTruncated c' = true
            /\ truncateRetries (writer c') = S (truncateRetries (writer c0))
            /\ queueItems c' = queueItems c0
            /\ recordsToWrite c' = recordsToWrite c0
            /\ queue (writer c') = queue (writer c0)
            /\ forall l,
                 heap (writer c') !! l =
                 if decide (l ∈ recordsToWrite c0)
                 then truncatedFields <$> heap (writer c0) !! l
                 else heap (writer c0) !! l.
Proof.
  split; [|split].
  - destruct (queue s t) as [|i q] eqn:Eq.
    + rewrite flush_empty by exact Eq. lia.
    + rewrite flush_nonempty by (rewrite Eq; discriminate).
      unfold backOff.
      assert (H0 : truncatedOnce (truncateRetries s) (startCycle t fullQueue s)).
      { unfold truncatedOnce, truncateRetries, startCycle. cbn. lia. }
      pose proof (truncatedOnce_loop upsert t (truncateRetries s)
                    (numOfAttempts env) 0 (startCycle t fullQueue s) H0) as H.
      unfold truncatedOnce in H.
      destruct (attemptLoop upsert t _ _ _) as [[|err] c]; cbn [snd] in H.
      * rewrite H. destruct (hasBeenTruncated c); lia.
      * destruct (requeueOrDrop_spec upsert t (queueItems c) (writer c))
          as (_ & _ & _ & _ & _ & _ & _ & _ & Hs & _).
        unfold truncateRetries in *. rewrite Hs, H.
        destruct (hasBeenTruncated c); lia.
  - destruct (queue s t) as [|i q] eqn:Eq.
    + rewrite flush_empty by exact Eq. lia.
    + rewrite flush_nonempty by (rewrite Eq; discriminate).
      unfold backOff.
      pose proof (attemptLoop_writes upsert t (numOfAttempts env) 0
                    (startCycle t fullQueue s)) as H.
      destruct (attemptLoop upsert t _ _ _) as [[|err] c]; cbn [snd] in H.
      * exact H.
      * destruct (requeueOrDrop_spec upsert t (queueItems c) (writer c))
          as (_ & _ & _ & _ & _ & _ & _ & Hw & _).
        now rewrite Hw.
  - intros remaining a c0 e E Hc. cbv zeta.
    destruct (request_frame upsert t c0)
      as (Hq & Hr & Hf & Hh & Hqu & _ & _ & Hs & _).
    destruct (hasBeenTruncated c0) eqn:F.
    + rewrite (attemptLoop_stops upsert t remaining a c0 e E)
        by (apply retry_oversized_again; [exact Hc | now rewrite Hf]).
      unfold truncateRetries. now rewrite Hh, Hs.
    + rewrite !(attemptLoop_rejected upsert _ _ _ _ e E). cbv zeta.
      rewrite retry_oversized_first by (try exact Hc; now rewrite Hf).
      cbn [fst snd negb orb Nat.eqb hasBeenTruncated queueItems recordsToWrite writer].
      rewrite truncateRetries_addEvent. cbn [isTruncateRetry].
      unfold truncateRetries.
      cbn [spanEvents setHeap queue addEvent heap].
      rewrite Hs, Hq, Hr, Hqu, Hh.
      repeat split; try reflexivity; try lia.
      intros l. apply truncateAll_lookup.
Qed.

(** C5. When the store throws a retryable error on [k] writes, [k] below
    the attempt cap, and accepts the next, the cycle calls the write
    [k + 1] times with the same records, changes no record, drops no item
    and puts no item back. *)
Theorem transient_failures_are_retried t fullQueue s k :
  queue s t <> [] ->
  let n := deleteCount fullQueue s (queue s t) in
  let records := deref (heap s) (map data (take n (queue s t))) in
  failsThenSucceeds upsert k t records (world s) = true ->
  (k < numOfAttempts env)%nat ->
  let s' := flush upsert env t fullQueue s in
  written s' = (written s ++ replicate (S k) (t, records))%list
  /\ queue s' t = drop n (queue s t)
  /\ (forall t', t' <> t -> queue s' t' = queue s t')
  /\ errorCounter s' = errorCounter s
  /\ heap s' = heap s.
Proof.
  intros Hne n records Hk Hlt. cbv zeta.
  destruct (flush_transient upsert env t fullQueue s k Hne Hk Hlt)
    as (H1 & H2 & H3 & H4 & H5 & _).
  tauto.
Qed.

End AttemptClaims.

(** ** Cycles, queues and the scheduler *)

Section SchedulerFacts.
Import JS ErrorClassifier RecordCodec BatchWriter.

Context {World : Type}.
Variable upsert : TableName -> RecordInsert -> World -> World * option Value.
Variable env : Env.

Implicit Types (s : Writer World) (c : Cycle World) (t : TableName).

(** The outcome of a cycle: the items pulled are the ones still in flight
    followed by the ones given back to the front; the queue is those,
    what was not pulled, and after a failed loop the in-flight items that
    may be retried, each with one more attempt; the others are counted as
    dropped. *)
Lemma flush_cycle t fullQueue s :
  queue s t <> [] ->
  let n := deleteCount fullQueue s (queue s t) in
  let out := backOff upsert env t (startCycle t fullQueue s) in
  let retained := queueItems out.2 in
  let s' := flush upsert env t fullQueue s in
  exists front,
    take n (queue s t) = (retained ++ front)%list
    /\ maxAttempts s' = maxAttempts s
    /\ (forall t', t' <> t -> queue s' t' = queue s t')
    /\ match out.1 with
       | Resolved =>
           queue s' t = (front ++ drop n (queue s t))%list
           /\ errorCounter s' = errorCounter s
       | Rejected _ =>
           queue s' t =
           (front ++ drop n (queue s t)
              ++ map requeued (List.filter (mayRetry s) retained))%list
           /\ errorCounter s' =
              (errorCounter s
               + length (List.filter (fun i => negb (mayRetry s i)) retained))%nat
       end.
Proof.
  intros Hne. cbv zeta. rewrite flush_nonempty by exact Hne. unfold backOff.
  set (c0 := startCycle t fullQueue s).
  set (n := deleteCount fullQueue s (queue s t)).
  assert (H0 : handoff t (take n (queue s t)) (drop n (queue s t)) c0).
  { exists []. split; [now rewrite app_nil_r|].
    unfold c0, startCycle. cbn. now rewrite decide_True. }
  assert (S0 : sameSettings s c0) by (repeat split).
  assert (O0 : otherQueues t s c0).
  { intros t' Ht'. unfold c0, startCycle. cbn. now rewrite decide_False. }
  pose proof (handoff_loop upsert t _ _ (numOfAttempts env) 0 c0 H0)
    as (front & Hp & Hq).
  pose proof (sameSettings_loop upsert t s (numOfAttempts env) 0 c0 S0)
    as (Hm & _ & He & _).
  pose proof (otherQueues_loop upsert t s (numOfAttempts env) 0 c0 O0) as Ho.
  destruct (attemptLoop upsert t (numOfAttempts env) 0 c0) as [[|err] c];
    cbn [fst snd] in *; exists front.
  - repeat split; try assumption.
  - destruct (requeueOrDrop_spec upsert t (queueItems c) (writer c))
      as (R1 & R2 & R3 & R4 & _).
    assert (Hmr : mayRetry (writer c) = mayRetry s)
      by (unfold mayRetry; now rewrite Hm).
    rewrite R1, R2, R4, Hq, He, Hmr, <- app_assoc.
    repeat split; try assumption.
    intros t' Ht'. rewrite R3 by exact Ht'. now apply Ho.
Qed.

Lemma mayRetry_false_iff s (i : QueueItem) :
  attempts i <= maxAttempts s ->
  mayRetry s i = false <-> attempts i = maxAttempts s.
Proof. intros H. unfold mayRetry. rewrite Z.ltb_ge. lia. Qed.

Lemma attemptsBounded_flush t fullQueue s :
  attemptsBounded s -> attemptsBounded (flush upsert env t fullQueue s).
Proof.
  intros Hb. destruct (queue s t) as [|i0 q0] eqn:Eq.
  { now rewrite flush_empty. }
  assert (Hne : queue s t <> []) by (rewrite Eq; discriminate).
  destruct (flush_cycle t fullQueue s Hne) as (front & Hp & Hm & Ho & Hout).
  intros t'. rewrite Hm. destruct (decide (t' = t)) as [->|Hd].
  - pose proof (Hb t) as Ht.
    assert (Htake : Forall (fun i => attempts i <= maxAttempts s)
                      (take (deleteCount fullQueue s (queue s t)) (queue s t)))
      by now apply Forall_take.
    rewrite Hp in Htake. apply Forall_app in Htake as [Hret Hfront].
    assert (Hdrop : Forall (fun i => attempts i <= maxAttempts s)
                      (drop (deleteCount fullQueue s (queue s t)) (queue s t)))
      by now apply Forall_drop.
    destruct (backOff upsert env t _).1.
    + destruct Hout as [-> _]. apply Forall_app. now split.
    + destruct Hout as [-> _]. rewrite !Forall_app. repeat split; try assumption.
      apply Forall_forall. intros x Hx.
      apply list_elem_of_fmap in Hx as (i & -> & Hi).
      apply list_elem_of_In, List.filter_In in Hi as [_ Hi].
      unfold mayRetry in Hi. apply Z.ltb_lt in Hi. cbn. lia.
  - rewrite Ho by exact Hd. apply Hb.
Qed.

Lemma attemptsBounded_addToQueue t record now s :
  1 <= maxAttempts s ->
  attemptsBounded s -> attemptsBounded (addToQueue upsert env t record now s).
Proof.
  intros H1 Hb. unfold addToQueue.
  assert (Hb1 : attemptsBounded
                  (setQueue t (queue s t ++ [mkItem now 1 record]) s)).
  { intros t'. cbn. case_decide.
    - subst. apply Forall_app. split; [apply Hb|]. repeat constructor. exact H1.
    - apply Hb. }
  destruct (_ >=? _); [now apply attemptsBounded_flush | exact Hb1].
Qed.

Lemma attemptsBounded_construct (w : World) h handle :
  attemptsBounded (construct env w h handle).
Proof. intros t. constructor. Qed.

(** *** A store that accepts every write *)

Lemma flush_full_healthy t s :
  healthy upsert ->
  let s' := flush upsert env t true s in
  queue s' t = []
  /\ (forall t', t' <> t -> queue s' t' = queue s t')
  /\ written s' = (written s ++ option_list (drained s t))%list
  /\ heap s' = heap s
  /\ errorCounter s' = errorCounter s
  /\ intervalId s' = intervalId s.
Proof.
  intros Hh. cbv zeta. unfold drained.
  destruct (queue s t) as [|i q] eqn:Eq.
  - rewrite flush_empty by exact Eq. cbn. rewrite app_nil_r. tauto.
  - assert (Hne : queue s t <> []) by (rewrite Eq; discriminate).
    destruct (flush_transient upsert env t true s 0 Hne)
      as (H1 & H2 & H3 & H4 & H5 & _ & _ & H8).
    + cbn. now rewrite healthy_write.
    + apply numOfAttempts_pos.
    + rewrite H1, H2, H4, H5, H8. unfold deleteCount. rewrite Eq.
      rewrite take_ge, drop_ge by lia. cbn. tauto.
Qed.

Lemma drained_ext s s' t :
  queue s' t = queue s t -> heap s' = heap s -> drained s' t = drained s t.
Proof. intros Hq Hh. unfold drained. now rewrite Hq, Hh. Qed.

Lemma flush_tables_healthy (ts : list TableName) :
  healthy upsert ->
  NoDup ts ->
  forall s,
    let s' := foldl (fun acc t => flush upsert env t true acc) s ts in
    (forall t, queue s' t = if decide (t ∈ ts) then [] else queue s t)
    /\ written s' = (written s ++ omap (drained s) ts)%list
    /\ heap s' = heap s
    /\ errorCounter s' = errorCounter s
    /\ intervalId s' = intervalId s.
Proof.
  intros Hh Hnd. induction Hnd as [|t ts Hnotin Hnd IH]; intros s; cbv zeta.
  - cbn [foldl omap list_omap]. rewrite app_nil_r.
    split; [|tauto]. intros t.
    now rewrite decide_False by apply not_elem_of_nil.
  - cbn [foldl].
    destruct (flush_full_healthy t s Hh) as (F1 & F2 & F3 & F4 & F5 & F6).
    destruct (IH (flush upsert env t true s)) as (I1 & I2 & I3 & I4 & I5).
    rewrite I2, I3, I4, I5, F3, F4, F5, F6. repeat split.
    + intros t'. rewrite I1. destruct (decide (t' = t)) as [->|Hd].
      * rewrite decide_False by exact Hnotin.
        now rewrite decide_True by apply list_elem_of_here.
      * rewrite F2 by exact Hd.
        destruct (decide (t' ∈ ts)) as [Hin|Hnin].
        -- now rewrite decide_True by now apply list_elem_of_further.
        -- rewrite decide_False; [reflexivity|].
           intros Hin. apply elem_of_cons in Hin as [->|Hin]; contradiction.
    + cbn [omap list_omap]. rewrite <- app_assoc. f_equal.
      assert (Hext : omap (drained (flush upsert env t true s)) ts
                     = omap (drained s) ts).
      { clear IH I1 I2 I3 I4 I5 Hnd. induction ts as [|t' ts IHts]; [reflexivity|].
        cbn [omap list_omap].
        rewrite (drained_ext s (flush upsert env t true s) t').
        - rewrite IHts; [reflexivity|].
          intros Hin. apply Hnotin. now apply list_elem_of_further.
        - apply F2. intros ->. apply Hnotin. apply list_elem_of_here.
        - exact F4. }
      rewrite Hext. now destruct (drained s t).
Qed.

Lemma NoDup_allTables : NoDup allTables.
Proof. apply (bool_decide_unpack _). vm_compute. exact I. Qed.

Lemma elem_of_allTables t : t ∈ allTables.
Proof. destruct t; apply (bool_decide_unpack _); vm_compute; exact I. Qed.

Lemma deref_allocated (h : Heap) (refs : list Ref) :
  Forall (fun r => is_Some (h !! r)) refs -> length (deref h refs) = length refs.
Proof.
  induction 1 as [|r refs [x Hx] _ IH]; [reflexivity|].
  unfold deref in *. cbn [omap list_omap]. rewrite Hx. cbn. now rewrite IH.
Qed.

(** With a store that accepts every write, enqueuing keeps every queue
    shorter than a batch: the flush started at [batchSize] empties the
    queue. *)
Lemma shortQueues_addToQueue t record now s :
  healthy upsert ->
  shortQueues s -> shortQueues (addToQueue upsert env t record now s).
Proof.
  intros Hh Hs. unfold addToQueue. rewrite queue_setQueue_eq.
  cbn [batchSize setQueue].
  set (q1 := (queue s t ++ [mkItem now 1 record])%list).
  assert (Hlen : Z.of_nat (length q1) = Z.of_nat (length (queue s t)) + 1).
  { unfold q1. rewrite length_app. cbn. lia. }
  pose proof (Hs t) as Ht.
  destruct (_ >=? _) eqn:E.
  - rewrite Z.geb_leb in E. apply Z.leb_le in E.
    assert (Hne : queue (setQueue t q1 s) t <> []).
    { rewrite queue_setQueue_eq. unfold q1. destruct (queue s t); discriminate. }
    destruct (flush_transient upsert env t false (setQueue t q1 s) 0 Hne)
      as (_ & H2 & H3 & _ & _ & _ & H7 & _).
    + cbn [failsThenSucceeds]. now rewrite healthy_write.
    + apply numOfAttempts_pos.
    + intros t'. rewrite H7. cbn [batchSize setQueue].
      destruct (decide (t' = t)) as [->|Hd].
      * rewrite H2. unfold deleteCount. cbn [batchSize setQueue].
        rewrite queue_setQueue_eq, length_drop. lia.
      * rewrite H3 by exact Hd. rewrite queue_setQueue_ne by exact Hd. apply Hs.
  - rewrite Z.geb_leb in E. apply Z.leb_gt in E.
    intros t'. cbn [batchSize setQueue].
    destruct (decide (t' = t)) as [->|Hd].
    + rewrite queue_setQueue_eq. exact E.
    + rewrite queue_setQueue_ne by exact Hd. apply Hs.
Qed.

End SchedulerFacts.

(** ** The claims about cycles, queues and the scheduler *)

Section CycleClaims.
Import JS ErrorClassifier RecordCodec BatchWriter.

Context {World : Type}.
Variable upsert : TableName -> RecordInsert -> World -> World * option Value.
Variable env : Env.

Implicit Types (s : Writer World) (c : Cycle World) (t : TableName).

(** The loop is rejected with an error that a write threw. *)
Lemma attemptLoop_rejected_by_write t r :
  forall a c e,
    (attemptLoop upsert t (S r) a c).1 = Rejected e ->
    exists c1, (request upsert t c1).1 = Some e.
Proof.
  induction r as [|r IH]; intros a c e;
    (destruct (request upsert t c).1 as [e'|] eqn:E;
     [rewrite (attemptLoop_rejected upsert _ _ _ _ e' E); cbv zeta
     |rewrite attemptLoop_resolved by exact E; discriminate]).
  - rewrite orb_true_r. cbn [fst]. intros [= <-]. now exists c.
  - destruct (negb _ || _).
    + cbn [fst]. intros [= <-]. now exists c.
    + apply IH.
Qed.

(** C3, as amended.  After a cycle whose attempt loop failed, every item
    still in flight with [attempts < maxAttempts] is appended to the back
    of the queue with [attempts + 1], and every other one is dropped and
    counted once.  Nothing else changes [attempts]: the items given back
    to the front by a split and the items not pulled are as they were, and
    after a successful loop nothing is appended or counted.  While no
    queued item exceeds [maxAttempts], which every cycle preserves, the
    dropped items are exactly the in-flight items whose [attempts] is
    [maxAttempts].  Items are dropped only in a cycle that ends with the
    error a write of the batch threw; nothing is said of what that write
    stored before it threw. *)
Theorem exhausted_cycle_requeues_or_drops t fullQueue s :
  queue s t <> [] ->
  let n := deleteCount fullQueue s (queue s t) in
  let out := backOff upsert env t (startCycle t fullQueue s) in
  let retained := queueItems out.2 in
  let s' := flush upsert env t fullQueue s in
  (exists front,
     take n (queue s t) = (retained ++ front)%list
     /\ match out.1 with
        | Resolved =>
            queue s' t = (front ++ drop n (queue s t))%list
            /\ errorCounter s' = errorCounter s
        | Rejected _ =>
            queue s' t =
            (front ++ drop n (queue s t)
               ++ map requeued (List.filter (mayRetry s) retained))%list
            /\ errorCounter s' =
               (errorCounter s
                + length (List.filter (fun i => negb (mayRetry s i)) retained))%nat
        end)
  /\ (forall i, attempts (requeued i) = attempts i + 1
                /\ createdAt (requeued i) = createdAt i
                /\ data (requeued i) = data i)
  /\ (forall i, mayRetry s i = true <-> attempts i < maxAttempts s)
  /\ (attemptsBounded s ->
      attemptsBounded s'
      /\ Forall (fun i => mayRetry s i = false <-> attempts i = maxAttempts s)
           retained)
  /\ (forall e, out.1 = Rejected e ->
        exists c, (request upsert t c).1 = Some e).
Proof.
  intros Hne. cbv zeta.
  destruct (flush_cycle upsert env t fullQueue s Hne) as (front & Hp & Hm & Ho & Hout).
  split; [|split; [|split; [|split]]].
  5:{ intros e. unfold backOff. pose proof (numOfAttempts_pos env) as Hpos.
      destruct (numOfAttempts env) as [|m]; [lia|].
      apply attemptLoop_rejected_by_write. }
  - exists front. split; [exact Hp | exact Hout].
  - intros i. cbn. tauto.
  - intros i. unfold mayRetry. apply Z.ltb_lt.
  - intros Hb. split; [now apply attemptsBounded_flush|].
    assert (Htake : Forall (fun i => attempts i <= maxAttempts s)
                      (take (deleteCount fullQueue s (queue s t)) (queue s t)))
      by apply Forall_take, Hb.
    rewrite Hp in Htake. apply Forall_app in Htake as [Hret _].
    eapply Forall_impl; [exact Hret|].
    intros i Hi. now apply mayRetry_false_iff.
Qed.

(** C9. [shutdown] clears the timer and then flushes every table in full.
    With a store that accepts every write, when it returns the timer is
    cancelled, every queue is empty, each table that had items has been
    written once with all of them, whatever [batchSize] is, and nothing
    was dropped. *)
Theorem shutdown_drains_every_queue s :
  healthy upsert ->
  let s' := shutdown upsert env s in
  intervalId s' = None
  /\ (forall t, queue s' t = [])
  /\ written s' = (written s ++ omap (drained s) allTables)%list
  /\ (forall t, queue s t <> [] ->
        (t, deref (heap s) (map data (queue s t))) ∈ written s')
  /\ (forall t, Forall (fun i => is_Some (heap s !! data i)) (queue s t) ->
        length (deref (heap s) (map data (queue s t))) = length (queue s t))
  /\ errorCounter s' = errorCounter s
  /\ heap s' = heap s.
Proof.
  intros Hh. cbv zeta. unfold shutdown, flushAll.
  set (s1 := match intervalId s with
             | Some _ => setInterval (isIntervalFlushInProgress s) None s
             | None => s
             end).
  assert (H1 : intervalId s1 = None /\ queue s1 = queue s /\ heap s1 = heap s
               /\ written s1 = written s /\ errorCounter s1 = errorCounter s).
  { unfold s1. destruct (intervalId s) eqn:E; cbn; tauto. }
  destruct H1 as (Hi & Hq & Hhp & Hw & He).
  destruct (flush_tables_healthy upsert env allTables Hh NoDup_allTables
              (incrementRequest s1)) as (F1 & F2 & F3 & F4 & F5).
  assert (Hd : omap (drained (incrementRequest s1)) allTables
               = omap (drained s) allTables).
  { unfold drained. cbn [queue heap incrementRequest]. now rewrite Hq, Hhp. }
  rewrite F2, F3, F4, F5, Hd. cbn [written heap errorCounter intervalId incrementRequest].
  rewrite Hi, Hw, He, Hhp.
  split; [reflexivity|]. split; [|split; [reflexivity|split; [|split; [|tauto]]]].
  - intros t. rewrite F1. now rewrite decide_True by apply elem_of_allTables.
  - intros t Hne. apply elem_of_app. right. apply list_elem_of_omap.
    exists t. split; [apply elem_of_allTables|].
    unfold drained. destruct (queue s t); [now elim Hne | reflexivity].
  - intros t Hall. rewrite deref_allocated, length_map; [reflexivity|].
    now apply Forall_fmap.
Qed.

(** [addToQueue] as one step: the append, and from [batchSize] on the
    flush of the first [batchSize] items. *)
Lemma addToQueue_flush t record now s :
  let q1 := (queue s t ++ [mkItem now 1 record])%list in
  let s1 := setQueue t q1 s in
  let s' := addToQueue upsert env t record now s in
  let b := Z.to_nat (batchSize s) in
  queue s1 t = q1
  /\ (Z.of_nat (length q1) < batchSize s -> s' = s1)
  /\ (batchSize s <= Z.of_nat (length q1) ->
      s' = flush upsert env t false s1
      /\ ((writeToClickhouse upsert t
             (deref (heap s) (map data (take b q1))) (world s)).2 = None ->
          queue s' t = drop b q1
          /\ length (queue s' t) = (length q1 - b)%nat
          /\ written s' =
             (written s ++ [(t, deref (heap s) (map data (take b q1)))])%list
          /\ errorCounter s' = errorCounter s
          /\ (Z.of_nat (length q1) = batchSize s -> queue s' t = [])
          /\ (Z.of_nat (length (queue s t)) < batchSize s -> queue s' t = []))).
Proof.
  cbv zeta. split; [apply queue_setQueue_eq|]. unfold addToQueue.
  rewrite queue_setQueue_eq. cbn [batchSize setQueue].
  split.
  - intros Hlt. destruct (_ >=? _) eqn:E; [|reflexivity].
    rewrite Z.geb_leb in E. apply Z.leb_le in E. lia.
  - intros Hge. destruct (_ >=? _) eqn:E.
    2:{ rewrite Z.geb_leb in E. apply Z.leb_gt in E. lia. }
    split; [reflexivity|]. intros Hok.
    set (q1 := (queue s t ++ [mkItem now 1 record])%list) in *.
    set (s1 := setQueue t q1 s).
    assert (Hne : queue s1 t <> []).
    { unfold s1. rewrite queue_setQueue_eq. unfold q1.
      destruct (queue s t); discriminate. }
    destruct (flush_transient upsert env t false s1 0 Hne)
      as (H1 & H2 & _ & H4 & _).
    + cbn [failsThenSucceeds]. unfold deleteCount. subst s1.
      rewrite !queue_setQueue_eq. cbn [heap world setQueue batchSize].
      now rewrite Hok.
    + apply numOfAttempts_pos.
    + unfold deleteCount in *. subst s1.
      rewrite !queue_setQueue_eq in *.
      cbn [heap written errorCounter setQueue batchSize] in *.
      rewrite H1, H2, H4, length_drop.
      repeat split; try reflexivity.
      * intros Heq. apply drop_ge. lia.
      * intros Hshort. apply drop_ge. unfold q1 in *.
        rewrite length_app in *. cbn [length] in *. lia.
Qed.

(** The call of [addToQueue]: what it has done when it returns, and the
    cycle it leaves in flight. *)
Lemma addToQueueCall_spec t record now s :
  let q1 := (queue s t ++ [mkItem now 1 record])%list in
  let s1 := setQueue t q1 s in
  let b := Z.to_nat (batchSize s) in
  let ret := addToQueueCall t record now s in
  addToQueue upsert env t record now s =
    match ret.2 with
    | Some c => flushSettle upsert env t c
    | None => ret.1
    end
  /\ (Z.of_nat (length q1) < batchSize s -> ret = (s1, None))
  /\ (batchSize s <= Z.of_nat (length q1) ->
      ret = (setQueue t (drop b q1) s1,
             Some (mkCycle (setQueue t (drop b q1) s1) (take b q1)
                     (map data (take b q1)) false))
      /\ queue ret.1 t = drop b q1
      /\ (Z.of_nat (length q1) = batchSize s ->
          queue ret.1 t = [] /\ flush upsert env t false ret.1 = ret.1))
  /\ (written ret.1 = written s /\ world ret.1 = world s
      /\ heap ret.1 = heap s /\ errorCounter ret.1 = errorCounter s
      /\ spanEvents ret.1 = spanEvents s
      /\ forall t', t' <> t -> queue ret.1 t' = queue s t').
Proof.
  cbv zeta.
  assert (Hlen : (length (queue s t ++ [mkItem now 1 record]) =? 0)%nat = false).
  { rewrite length_app. cbn [length]. apply Nat.eqb_neq. lia. }
  unfold addToQueueCall, addToQueue, flushStart, flush, flushSettle, deleteCount.
  rewrite !queue_setQueue_eq. cbn [batchSize setQueue]. rewrite Hlen.
  destruct (_ >=? _) eqn:E; rewrite Z.geb_leb in E;
    [apply Z.leb_le in E | apply Z.leb_gt in E]; cbn [fst snd].
  - split_and!; try reflexivity; try lia.
    + intros _. split_and!; [reflexivity | apply queue_setQueue_eq | ].
      intros Heq.
      assert (Hd : drop (Z.to_nat (batchSize s))
                     (queue s t ++ [mkItem now 1 record]) = []).
      { apply drop_ge. lia. }
      rewrite !queue_setQueue_eq, Hd. split; reflexivity.
    + intros t' Hne. now rewrite !queue_setQueue_ne.
  - split_and!; try reflexivity; try lia.
    intros t' Hne. now rewrite queue_setQueue_ne.
Qed.

(** C8, as amended.  [addToQueue] appends an item with [attempts = 1] and
    the time of the call at the back of the queue of the table.  Below
    [batchSize] nothing else happens.  From [batchSize] on, and only then,
    it starts a flush of that table at once and does not wait for it: when
    the call returns the first [batchSize] items are pulled and in flight,
    nothing is written and nothing is counted yet, and the call returns
    nothing, also when the cycle fails later, which the [catch] block of
    [flush] settles.  When the write of the items pulled is accepted the
    queue is left with the items beyond the first [batchSize]; it is empty
    when the length after the append is exactly [batchSize], as it is
    whenever the queue was shorter than [batchSize] before the call, and
    then it is empty from the return of the call on, so that a timer tick
    that follows finds nothing to pull from it. *)
Theorem enqueue_flushes_the_first_batch t record now s :
  let q1 := (queue s t ++ [mkItem now 1 record])%list in
  let s1 := setQueue t q1 s in
  let s' := addToQueue upsert env t record now s in
  let b := Z.to_nat (batchSize s) in
  let ret := addToQueueCall t record now s in
  queue s1 t = q1
  /\ (Z.of_nat (length q1) < batchSize s -> s' = s1)
  /\ (batchSize s <= Z.of_nat (length q1) ->
      s' = flush upsert env t false s1
      /\ ((writeToClickhouse upsert t
             (deref (heap s) (map data (take b q1))) (world s)).2 = None ->
          queue s' t = drop b q1
          /\ length (queue s' t) = (length q1 - b)%nat
          /\ written s' =
             (written s ++ [(t, deref (heap s) (map data (take b q1)))])%list
          /\ errorCounter s' = errorCounter s
          /\ (Z.of_nat (length q1) = batchSize s -> queue s' t = [])
          /\ (Z.of_nat (length (queue s t)) < batchSize s -> queue s' t = [])))
  /\ s' = match ret.2 with
          | Some c => flushSettle upsert env t c
          | None => ret.1
          end
  /\ (Z.of_nat (length q1) < batchSize s -> ret = (s1, None))
  /\ (batchSize s <= Z.of_nat (length q1) ->
      ret = (setQueue t (drop b q1) s1,
             Some (mkCycle (setQueue t (drop b q1) s1) (take b q1)
                     (map data (take b q1)) false))
      /\ queue ret.1 t = drop b q1
      /\ (Z.of_nat (length q1) = batchSize s ->
          queue ret.1 t = [] /\ flush upsert env t false ret.1 = ret.1))
  /\ (written ret.1 = written s /\ world ret.1 = world s
      /\ heap ret.1 = heap s /\ errorCounter ret.1 = errorCounter s
      /\ spanEvents ret.1 = spanEvents s
      /\ forall t', t' <> t -> queue ret.1 t' = queue s t').
Proof.
  cbv zeta.
  destruct (addToQueue_flush t record now s) as (H1 & H2 & H3).
  split; [exact H1|]. split; [exact H2|]. split; [exact H3|].
  apply addToQueueCall_spec.
Qed.

(** C7, as amended.  Truncation works on the record the queue item
    refers to, not on a copy: [recordsToWrite] holds the references of
    the items in flight, and after a truncation - of the whole batch on
    an oversized-payload error, of the single item on a string-overflow
    error - each of them names the truncated record, while the records
    outside the batch are untouched.  The item pushed for another cycle
    is a new item with one more attempt that shares the record, and the
    push changes no record. *)
Theorem truncation_is_in_place t e attemptNumber c :
  aligned c ->
  let c' := (retry t e attemptNumber c).2 in
  let truncated :=
    forall l,
      heap (writer c') !! l =
      if decide (l ∈ map data (queueItems c))
      then truncatedFields <$> heap (writer c) !! l
      else heap (writer c) !! l in
  aligned c'
  /\ (classify e = OversizedPayload -> hasBeenTruncated c = false ->
      queueItems c' = queueItems c /\ truncated)
  /\ (classify e = StringOverflow -> length (queueItems c) = 1%nat ->
      queueItems c' = queueItems c /\ truncated)
  /\ (forall items s,
        heap (requeueOrDrop t items s) = heap s
        /\ Forall (fun i => data (requeued i) = data i
                            /\ attempts (requeued i) = attempts i + 1) items).
Proof.
  intros Ha. cbv zeta. unfold aligned in *.
  split; [|split; [|split]].
  - destruct (classify e) eqn:E.
    + apply classify_Retryable in E. now rewrite retry_retryable.
    + now rewrite retry_stringOverflow.
    + destruct (hasBeenTruncated c) eqn:F.
      * now rewrite retry_oversized_again.
      * now rewrite retry_oversized_first.
    + now rewrite retry_fatal.
  - intros E F. rewrite retry_oversized_first by assumption.
    cbn [snd queueItems writer heap addEvent setHeap].
    split; [reflexivity|]. intros l. rewrite <- Ha. apply truncateAll_lookup.
  - intros E Hlen. rewrite retry_stringOverflow by exact E. cbv zeta.
    pose proof (handleStringLengthError_spec (queueItems c) (heap (writer c))) as Hs.
    destruct (handleStringLengthError _ _) as [[ri rq] h'].
    destruct (queueItems c) as [|i1 [|i2 rest]]; try discriminate.
    destruct Hs as (-> & -> & ->). cbn [fst snd length Nat.ltb Nat.leb].
    cbn [queueItems writer heap addEvent setHeap].
    split; [reflexivity|]. intros l. cbn [map].
    destruct (decide (l = data i1)) as [->|Hne].
    + rewrite lookup_alter_eq.
      now rewrite decide_True by apply list_elem_of_here.
    + rewrite lookup_alter_ne by congruence.
      rewrite decide_False; [reflexivity|].
      intros Hin. apply list_elem_of_singleton in Hin. contradiction.
  - intros items s. split.
    + now destruct (requeueOrDrop_spec upsert t items s)
        as (_ & _ & _ & _ & _ & Hh & _).
    + apply Forall_forall. intros i _. cbn. tauto.
Qed.

End CycleClaims.

(** ** The truncation rule: the claim *)

Section CodecClaims.
Import JS RecordCodec.


End CodecClaims.

(** ** A record over the threshold *)

Section Witnesses.
Import JS ErrorClassifier RecordCodec BatchWriter Scenario.

Lemma len_filler n : len (filler n) = Z.of_nat n.
Proof.
  unfold len. induction n as [|n IH]; cbn [filler String.length]; [reflexivity|].
  lia.
Qed.

Lemma len_bigField : len bigField = maxFieldSize + 1.
Proof. unfold bigField. rewrite len_filler. unfold maxFieldSize. lia. Qed.

Lemma truncatedFields_oversizedRecord field :
  len field > maxFieldSize ->
  truncatedFields (oversizedRecord field) <> oversizedRecord field.
Proof.
  intros Hbig Heq. apply (f_equal input) in Heq.
  rewrite truncatedFields_spec in Heq.
  cbn [input oversizedRecord fmap option_fmap option_map] in Heq.
  injection Heq as Heq. pose proof (truncationRule_small field) as Hs.
  rewrite Heq in Hs. lia.
Qed.

(** A cycle on a record with an oversized input, rejected twice as too
    large: the item goes back to the queue with a second attempt, and
    the record it refers to is no longer the one that was enqueued. *)
Lemma oversized_cycle field :
  len field > maxFieldSize ->
  let s := oversizedWriter field in
  let s' := flush scripted env23 Traces false s in
  queue s Traces = [mkItem 0 1 1%positive]
  /\ queue s' Traces = [mkItem 0 2 1%positive]
  /\ heap s !! 1%positive = Some (oversizedRecord field)
  /\ heap s' !! 1%positive = Some (truncatedFields (oversizedRecord field))
  /\ heap s' !! 1%positive <> heap s !! 1%positive.
Proof.
  intros Hbig. cbv zeta.
  assert (H1 : queue (oversizedWriter field) Traces = [mkItem 0 1 1%positive])
    by reflexivity.
  assert (H2 : queue (flush scripted env23 Traces false (oversizedWriter field)) Traces
               = [mkItem 0 2 1%positive])
    by (cbv -[truncatedFields]; reflexivity).
  assert (H3 : heap (oversizedWriter field) !! 1%positive
               = Some (oversizedRecord field))
    by reflexivity.
  assert (H4 : heap (flush scripted env23 Traces false (oversizedWriter field))
                 !! 1%positive
               = Some (truncatedFields (oversizedRecord field)))
    by (cbv -[truncatedFields]; reflexivity).
  split_and!; try assumption.
  rewrite H3, H4. intros [= Heq].
  now apply (truncatedFields_oversizedRecord field).
Qed.

End Witnesses.

(** ** Counterexamples and instances *)

Section Instances.
Import JS ErrorClassifier RecordCodec BatchWriter Scenario StoreScenarios.

(** The classifier on the errors of the scenarios; a message is matched
    whatever its case, and only on an object. *)
Example classify_scenarios :
  classify socketHangUp = Retryable
  /\ classify invalidStringLength = StringOverflow
  /\ classify tooLarge = OversizedPayload
  /\ classify refused = Fatal
  /\ classify (Object (Some "Socket Hang Up; invalid string length")) = Retryable
  /\ classify (Object (Some "size of JSON object")) = Fatal
  /\ classify (Object None) = Fatal
  /\ classify (Str "socket hang up") = Fatal.
Proof. vm_compute. repeat split; reflexivity. Qed.

(** Four items, three attempts, every write fails with a string-overflow
    error: the batch goes 4, 2, 1; the items given back are at the front in
    their order, the last one in flight is behind them with a second
    attempt; nothing is dropped. *)
Example four_items_string_overflow :
  let s := writerOf env23 (replicate 8 (Some invalidStringLength)) records fourItems in
  let s' := flush scripted env23 Traces true s in
  queue s' Traces
  = [fresh 2%positive; fresh 3%positive; fresh 4%positive; mkItem 0 2 1%positive]
  /\ map (fun w => length w.2) (written s') = [4; 2; 1]%nat
  /\ spanEvents s'
     = [QuerySplitRetry 1 2 2; QuerySplitRetry 2 1 1; QuerySplitRetry 3 1 0]
  /\ errorCounter s' = 0%nat.
Proof. vm_compute. repeat split; reflexivity. Qed.

(** An item on its last attempt is dropped and counted when its cycle
    fails. *)
Example last_attempt_is_dropped :
  let s := writerOf env23 [Some refused] records [mkItem 0 3 1%positive] in
  let s' := flush scripted env23 Traces false s in
  queue s' Traces = [] /\ errorCounter s' = 1%nat.
Proof. vm_compute. split; reflexivity. Qed.

(** C1, as stated, fails: with three attempts and a store that answers
    every upsert with a string overflow, a batch of four is split into
    2 + 2, the retained two into 1 + 1, and the third failure, that of the
    last attempt, truncates the single retained item and ends the loop:
    there are three writes, no fourth one of the retained item, although
    the store had five more answers; the item is queued again by the
    [catch] block.  Already with one attempt left, the retained half of
    the four is never written. *)
Lemma last_string_overflow_is_not_retried :
  let s := writerOf env23 (replicate 8 (Some invalidStringLength)) records
             fourItems in
  let s' := flush scripted env23 Traces true s in
  let out := attemptLoop scripted Traces 1 0
               (cycleOf (replicate 8 (Some invalidStringLength))) in
  numOfAttempts env23 = 3%nat
  /\ isStringLengthError invalidStringLength = true
  /\ map (fun w => map id w.2) (written s') = [["a"; "b"; "c"; "d"]; ["a"; "b"]; ["a"]]
  /\ spanEvents s' =
     [QuerySplitRetry 1 2 2; QuerySplitRetry 2 1 1; QuerySplitRetry 3 1 0]
  /\ world s' = replicate 5 (Some invalidStringLength)
  /\ queue s' Traces =
     [fresh 2%positive; fresh 3%positive; fresh 4%positive;
      mkItem 0 2 1%positive]
  /\ out.1 = Rejected invalidStringLength
  /\ map data (queueItems out.2) = [1%positive; 2%positive]
  /\ map (fun w => map id w.2) (written (writer out.2)) = [["a"; "b"; "c"; "d"]].
Proof. cbv zeta. split_and!; vm_compute; reflexivity. Qed.

(** C2, as stated, fails: with three attempts, the store hangs up twice
    and then rejects the batch as too large.  The third failure is the
    first oversized one of the cycle: the records are truncated and the
    event is added, but it is the failure of the last attempt, so the
    loop ends with no retry, although the store would have accepted the
    next write; the two items are queued again. *)
Lemma oversized_on_last_attempt_is_not_retried :
  let s := writerOf env23 [Some socketHangUp; Some socketHangUp; Some tooLarge]
             records fourItems in
  let s' := flush scripted env23 Traces false s in
  numOfAttempts env23 = 3%nat
  /\ isSizeError tooLarge = true
  /\ map (fun w => map id w.2) (written s') = [["a"; "b"]; ["a"; "b"]; ["a"; "b"]]
  /\ spanEvents s' = [QueryRetry 1; QueryRetry 2; QueryTruncateRetry 3]
  /\ world s' = []
  /\ (forall t r, scripted t r (world s') = ([], None))
  /\ errorCounter s' = 0%nat
  /\ queue s' Traces =
     [fresh 3%positive; fresh 4%positive;
      mkItem 0 2 1%positive; mkItem 0 2 2%positive].
Proof. cbv zeta. split_and!; vm_compute; reflexivity. Qed.

(** C3, as stated, fails: with one attempt per cycle and per item, two
    items are flushed to a store that takes the first row and refuses the
    second.  The write of the batch throws, the cycle fails and both
    items are dropped and counted; the row of the first one is in the
    store. *)
Lemma dropped_item_was_written :
  let s := twoItemsWriter in
  let s' := flush oneRowStore env21 Traces false s in
  maxAttempts s = 1
  /\ queue s Traces = [fresh 1%positive; fresh 2%positive]
  /\ world s = []
  /\ map id (deref (heap s) [1%positive]) = ["a"]
  /\ queue s' Traces = []
  /\ errorCounter s' = 2%nat
  /\ world s' = ["a"].
Proof. cbv zeta. split_and!; vm_compute; reflexivity. Qed.

(** C7, as stated, fails: an item whose record has an input one character
    over the threshold is flushed, the store rejects the write as too
    large, the record is truncated, the second write is rejected too and
    the item is queued again.  The record the queued item refers to has
    changed. *)
Lemma truncation_mutates_the_queued_record :
  let s := oversizedWriter bigField in
  let s' := flush scripted env23 Traces false s in
  queue s Traces = [mkItem 0 1 1%positive]
  /\ queue s' Traces = [mkItem 0 2 1%positive]
  /\ heap s !! 1%positive = Some (oversizedRecord bigField)
  /\ heap s' !! 1%positive = Some (truncatedFields (oversizedRecord bigField))
  /\ heap s' !! 1%positive <> heap s !! 1%positive.
Proof. apply oversized_cycle. rewrite len_bigField. lia. Qed.

(** C8, as stated, fails: with batches of two, two items are enqueued and
    their flush is refused, so both are queued again; a third item is
    enqueued, the queue has three items, the flush that starts writes the
    first two with success, and one item is left. *)
Lemma enqueue_over_batchSize_leaves_items :
  let s0 := construct env23 [Some refused] records 1 in
  let s2 := addToQueue scripted env23 Traces 2%positive 20
              (addToQueue scripted env23 Traces 1%positive 10 s0) in
  let s3 := addToQueue scripted env23 Traces 3%positive 30 s2 in
  queue s2 Traces = [mkItem 10 2 1%positive; mkItem 20 2 2%positive]
  /\ batchSize s2 <= Z.of_nat (length (queue s2 Traces ++ [mkItem 30 1 3%positive]))
  /\ written s3 =
     (written s2 ++ [(Traces, [smallRecord "a"; smallRecord "b"])])%list
  /\ errorCounter s3 = 0%nat
  /\ queue s3 Traces = [mkItem 30 1 3%positive]
  /\ length (queue s3 Traces) <> 0%nat.
Proof.
  cbv zeta. split_and!; try (vm_compute; reflexivity).
  - vm_compute. discriminate.
  - vm_compute. discriminate.
Qed.

(** C6 on an error the classifier does not know. *)
Lemma unmatched_error_is_fatal_witness :
  classify refused = Fatal
  /\ attemptLoop scripted Traces 3 0 (cycleOf [Some refused])
     = (Rejected refused, (request scripted Traces (cycleOf [Some refused])).2).
Proof.
  assert (Hm : forall m, refused = Object (Some m) ->
            includes (toLowerCase m) "socket hang up" = false
            /\ includes (toLowerCase m) "invalid string length" = false
            /\ includes (toLowerCase m) "size of json object"
               && includes (toLowerCase m) "extremely large"
               && includes (toLowerCase m) "expected not greater than" = false).
  { intros m [= <-]. vm_compute. repeat split; reflexivity. }
  destruct (unmatched_error_is_fatal scripted refused Hm) as [Hc Hloop].
  split; [exact Hc|].
  apply (Hloop Traces 2%nat 0%nat (cycleOf [Some refused])).
  vm_compute. reflexivity.
Defined.

(** C10 on a thrown string. *)
Lemma non_object_error_is_fatal_witness :
  (Str "socket hang up" = Null \/ Str "socket hang up" = Undefined
   \/ typeof (Str "socket hang up") <> "object")
  /\ classify (Str "socket hang up") = Fatal.
Proof.
  assert (H : Str "socket hang up" = Null \/ Str "socket hang up" = Undefined
              \/ typeof (Str "socket hang up") <> "object").
  { right. right. vm_compute. discriminate. }
  split; [exact H|].
  exact (proj1 (proj2 (proj2 (proj2
           (non_object_error_is_fatal scripted (Str "socket hang up") H))))).
Defined.

(** C1 on four items. *)
Lemma string_overflow_splits_or_truncates_witness :
  let c0 := cycleOf [Some invalidStringLength] in
  let c' := (retry Traces invalidStringLength 1
               (request scripted Traces c0).2).2 in
  (request scripted Traces c0).1 = Some invalidStringLength
  /\ classify invalidStringLength = StringOverflow
  /\ attemptLoop scripted Traces 2 0 c0 = attemptLoop scripted Traces 1 1 c'
  /\ length (queueItems c') = 2%nat.
Proof.
  cbv zeta.
  assert (H1 : (request scripted Traces (cycleOf [Some invalidStringLength])).1
               = Some invalidStringLength) by (vm_compute; reflexivity).
  assert (H2 : classify invalidStringLength = StringOverflow)
    by (vm_compute; reflexivity).
  destruct (string_overflow_splits_or_truncates scripted Traces 0 0
              (cycleOf [Some invalidStringLength]) invalidStringLength H1 H2)
    as (Hloop & _ & _ & _ & _ & H4).
  split_and!; [exact H1 | exact H2 | exact Hloop |].
  apply H4. vm_compute. reflexivity.
Defined.

(** C5 on two transient failures out of three attempts. *)
Lemma transient_failures_are_retried_witness :
  let s := writerOf env23 [Some socketHangUp; Some socketHangUp] records fourItems in
  let s' := flush scripted env23 Traces false s in
  queue s Traces <> []
  /\ (2 < numOfAttempts env23)%nat
  /\ written s' =
     (written s
        ++ replicate 3 (Traces, [smallRecord "a"; smallRecord "b"]))%list
  /\ errorCounter s' = errorCounter s.
Proof.
  cbv zeta.
  set (s := writerOf env23 [Some socketHangUp; Some socketHangUp] records fourItems).
  assert (H1 : queue s Traces <> []) by (vm_compute; discriminate).
  assert (H2 : failsThenSucceeds scripted 2 Traces
                 (deref (heap s)
                    (map data (take (deleteCount false s (queue s Traces))
                                 (queue s Traces))))
                 (world s) = true) by (vm_compute; reflexivity).
  assert (H3 : (2 < numOfAttempts env23)%nat) by (vm_compute; lia).
  destruct (transient_failures_are_retried scripted env23 Traces false s 2 H1 H2 H3)
    as (Hw & _ & _ & He & _).
  split_and!; [exact H1 | exact H3 | | exact He].
  rewrite Hw. vm_compute. reflexivity.
Defined.

(** C3 on a cycle refused at the first attempt: two of four items are
    pulled, both come back behind the other two with a second attempt. *)
Lemma exhausted_cycle_requeues_or_drops_witness :
  let s := writerOf env23 [Some refused] records fourItems in
  let s' := flush scripted env23 Traces false s in
  queue s Traces <> []
  /\ attemptsBounded s
  /\ attemptsBounded s'
  /\ (forall i, attempts (requeued i) = attempts i + 1).
Proof.
  cbv zeta.
  set (s := writerOf env23 [Some refused] records fourItems).
  assert (H1 : queue s Traces <> []) by (vm_compute; discriminate).
  assert (H2 : attemptsBounded s).
  { intros t. destruct t; vm_compute; repeat constructor; discriminate. }
  destruct (exhausted_cycle_requeues_or_drops scripted env23 Traces false s H1)
    as (_ & Hr & _ & Hb & _).
  split_and!; [exact H1 | exact H2 | exact (proj1 (Hb H2)) |].
  intros i. exact (proj1 (Hr i)).
Defined.

(** C9 on four items and batches of two. *)
Lemma shutdown_drains_every_queue_witness :
  healthy accepting
  /\ batchSize fullWriter < Z.of_nat (length (queue fullWriter Traces))
  /\ intervalId (shutdown accepting env23 fullWriter) = None
  /\ (forall t, queue (shutdown accepting env23 fullWriter) t = []).
Proof.
  assert (Hh : healthy accepting) by (intros t r w; reflexivity).
  destruct (shutdown_drains_every_queue accepting env23 fullWriter Hh)
    as (Hi & Hq & _).
  split_and!; [exact Hh | vm_compute; reflexivity | exact Hi | exact Hq].
Defined.

(** C7, as amended, on a batch rejected as too large. *)
Lemma truncation_is_in_place_witness :
  aligned (cycleOf []) /\ aligned (retry Traces tooLarge 1 (cycleOf [])).2.
Proof.
  assert (H : aligned (cycleOf [])) by reflexivity.
  split; [exact H|].
  exact (proj1 (truncation_is_in_place (World:=Script) scripted Traces tooLarge 1
                  (cycleOf []) H)).
Defined.

(** C2 on a batch rejected as too large: the first failure sets the flag. *)
Lemma oversized_truncates_once_witness :
  let c0 := cycleOf [Some tooLarge; Some tooLarge] in
  let c' := (retry Traces tooLarge 1 (request scripted Traces c0).2).2 in
  (request scripted Traces c0).1 = Some tooLarge
  /\ classify tooLarge = OversizedPayload
  /\ hasBeenTruncated c0 = false
  /\ hasBeenTruncated c' = true
  /\ truncateRetries (writer c') = S (truncateRetries (writer c0)).
Proof.
  cbv zeta.
  set (c0 := cycleOf [Some tooLarge; Some tooLarge]).
  assert (H1 : (request scripted Traces c0).1 = Some tooLarge)
    by (vm_compute; reflexivity).
  assert (H2 : classify tooLarge = OversizedPayload) by (vm_compute; reflexivity).
  assert (H3 : hasBeenTruncated c0 = false) by reflexivity.
  pose proof (proj2 (proj2 (oversized_truncates_once scripted env23 Traces true
                              (writerOf env23 [] records fourItems)))
                0%nat 0%nat c0 tooLarge H1 H2) as Hstep.
  cbv zeta in Hstep. rewrite H3 in Hstep.
  destruct Hstep as (_ & _ & Hflag & Hcount & _).
  split_and!; assumption.
Defined.


(** C8, as amended, on the enqueue that fills a batch of two. *)
Lemma enqueue_flushes_the_first_batch_witness :
  let s' := addToQueue accepting env23 Traces 2%positive 5 oneItemWriter in
  let ret := addToQueueCall Traces 2%positive 5 oneItemWriter in
  batchSize oneItemWriter
  <= Z.of_nat (length (queue oneItemWriter Traces ++ [mkItem 5 1 2%positive]))
  /\ queue s' Traces = []
  /\ written s' = [(Traces, [smallRecord "a"; smallRecord "b"])]
  /\ queue ret.1 Traces = []
  /\ written ret.1 = [].
Proof.
  cbv zeta.
  destruct (enqueue_flushes_the_first_batch accepting env23 Traces 2%positive 5
              oneItemWriter) as (_ & _ & Hflush & _ & _ & Hcall & Hret & _).
  assert (H1 : batchSize oneItemWriter
               <= Z.of_nat (length (queue oneItemWriter Traces
                                      ++ [mkItem 5 1 2%positive])))
    by (vm_compute; discriminate).
  destruct (Hflush H1) as (_ & Hok).
  destruct Hok as (Hq & _ & Hw & _ & Hempty & _); [vm_compute; reflexivity|].
  destruct (Hcall H1) as (_ & _ & Hreturn).
  split_and!; [exact H1 | | | | ].
  - apply Hempty. vm_compute. reflexivity.
  - rewrite Hw. vm_compute. reflexivity.
  - apply Hreturn. vm_compute. reflexivity.
  - rewrite Hret. vm_compute. reflexivity.
Defined.

End Instances.

(** * Further properties of the writer *)

(** ** Writing a batch *)

Section WriteFacts.
Import JS ErrorClassifier RecordCodec BatchWriter.

Context {World : Type}.
Variable upsert : TableName -> RecordInsert -> World -> World * option Value.
Variable env : Env.

Implicit Types (s : Writer World) (c : Cycle World) (t : TableName).

Lemma accepts_write t records w :
  accepts upsert t -> (writeToClickhouse upsert t records w).2 = None.
Proof.
  intros H. revert w. induction records as [|r rs IH]; intros w; [reflexivity|].
  cbn [writeToClickhouse]. pose proof (H r w) as Hr.
  destruct (writeRecordToPostgres upsert t r w) as [w' [e|]];
    cbn in Hr; [discriminate | apply IH].
Qed.

Lemma clickhouseOnly_accepts t : clickhouseOnly t = true -> accepts upsert t.
Proof. intros H r w. destruct t; try discriminate; reflexivity. Qed.

Lemma clickhouseOnly_write t records w :
  clickhouseOnly t = true -> writeToClickhouse upsert t records w = (w, None).
Proof.
  intros H. induction records as [|r rs IH]; [reflexivity|].
  cbn [writeToClickhouse].
  replace (writeRecordToPostgres upsert t r w) with (w, @None Value)
    by (destruct t; try discriminate; reflexivity).
  exact IH.
Qed.

(** X1. [writeToClickhouse] writes the records in order, each with
    [writeRecordToPostgres] in the store the one before left, and stops at
    the first one that throws.  A batch of one record is that record's
    write, which for the tables kept in PostgreSQL is the upsert; a batch
    [a ++ b] is the batch [a] and, only when all of [a] was accepted, the
    batch [b] in the store [a] left; an empty batch is accepted without
    touching the store.  An accepted batch leaves the store of the
    records' writes made one after the other; a batch that throws [e] has
    a first record whose write threw [e], after the records before it
    were accepted, and leaves the store of that write: the records after
    it are not written. *)
Theorem writeToClickhouse_stops_at_first_error t (a b : list RecordInsert)
    (r : RecordInsert) (w : World) :
  writeToClickhouse upsert t (r :: b) w
  = match writeRecordToPostgres upsert t r w with
    | (w', Some e) => (w', Some e)
    | (w', None) => writeToClickhouse upsert t b w'
    end
  /\ writeToClickhouse upsert t [r] w = writeRecordToPostgres upsert t r w
  /\ (clickhouseOnly t = false ->
      writeRecordToPostgres upsert t r w = upsert t r w)
  /\ writeToClickhouse upsert t (a ++ b) w
     = match writeToClickhouse upsert t a w with
       | (w', Some e) => (w', Some e)
       | (w', None) => writeToClickhouse upsert t b w'
       end
  /\ writeToClickhouse upsert t [] w = (w, None)
  /\ ((writeToClickhouse upsert t a w).2 = None ->
      (writeToClickhouse upsert t a w).1
      = foldl (fun w' r' => (writeRecordToPostgres upsert t r' w').1) w a)
  /\ (forall e, (writeToClickhouse upsert t a w).2 = Some e ->
      exists a1 r1 a2,
        a = (a1 ++ r1 :: a2)%list
        /\ (writeToClickhouse upsert t a1 w).2 = None
        /\ writeRecordToPostgres upsert t r1
             (writeToClickhouse upsert t a1 w).1
           = ((writeToClickhouse upsert t a w).1, Some e)).
Proof.
  split_and!.
  - reflexivity.
  - cbn [writeToClickhouse].
    destruct (writeRecordToPostgres upsert t r w) as [w' [e|]]; reflexivity.
  - intros Ht. destruct t; try discriminate Ht; reflexivity.
  - revert w. induction a as [|r0 a IH]; intros w; [reflexivity|].
    cbn [app writeToClickhouse].
    destruct (writeRecordToPostgres upsert t r0 w) as [w' [e|]];
      [reflexivity | apply IH].
  - reflexivity.
  - revert w. induction a as [|r0 a IH]; intros w; [reflexivity|].
    cbn [writeToClickhouse foldl].
    destruct (writeRecordToPostgres upsert t r0 w) as [w' [e|]] eqn:E;
      [discriminate|].
    cbn [fst]. apply IH.
  - revert w. induction a as [|r0 a IH]; intros w e; [discriminate|].
    cbn [writeToClickhouse].
    destruct (writeRecordToPostgres upsert t r0 w) as [w' [e'|]] eqn:E.
    + cbn [fst snd]. intros [= <-]. exists [], r0, a.
      split_and!; [reflexivity | reflexivity | exact E].
    + intros H. destruct (IH w' e H) as (a1 & r1 & a2 & -> & Hok & Hw).
      exists (r0 :: a1), r1, a2. cbn [app writeToClickhouse]. rewrite E.
      split_and!; [reflexivity | exact Hok | exact Hw].
Qed.

(** A cycle whose first write is accepted. *)
Lemma flush_accepted t fullQueue s :
  queue s t <> [] ->
  let n := deleteCount fullQueue s (queue s t) in
  let records := deref (heap s) (map data (take n (queue s t))) in
  (writeToClickhouse upsert t records (world s)).2 = None ->
  let s' := flush upsert env t fullQueue s in
  world s' = (writeToClickhouse upsert t records (world s)).1
  /\ queue s' t = drop n (queue s t)
  /\ written s' = (written s ++ [(t, records)])%list
  /\ errorCounter s' = errorCounter s
  /\ heap s' = heap s
  /\ spanEvents s' = spanEvents s.
Proof.
  intros Hne n records Hok. cbv zeta.
  rewrite flush_nonempty by exact Hne. unfold backOff.
  pose proof (numOfAttempts_pos env) as Hpos.
  destruct (numOfAttempts env) as [|m]; [lia|].
  assert (E : (request upsert t (startCycle t fullQueue s)).1 = None).
  { rewrite request_fst. exact Hok. }
  rewrite attemptLoop_resolved by exact E. rewrite request_snd.
  cbn. rewrite decide_True by reflexivity. repeat split; reflexivity.
Qed.

(** X2. Five of the eight tables are not kept in PostgreSQL: a write to
    one of them never reaches the store and is always accepted, so a flush
    of such a table removes the items it pulls without an upsert, a drop
    or a change to a record. *)
Theorem clickhouse_only_tables_are_not_written t fullQueue s :
  clickhouseOnly t = true ->
  (forall records w, writeToClickhouse upsert t records w = (w, None))
  /\ let s' := flush upsert env t fullQueue s in
     world s' = world s
     /\ queue s' t = drop (deleteCount fullQueue s (queue s t)) (queue s t)
     /\ errorCounter s' = errorCounter s
     /\ heap s' = heap s.
Proof.
  intros Hc. split; [intros records w; now apply clickhouseOnly_write|].
  cbv zeta. destruct (queue s t) as [|i q] eqn:Eq.
  - rewrite flush_empty by exact Eq. now rewrite drop_nil.
  - assert (Hne : queue s t <> []) by (rewrite Eq; discriminate).
    destruct (flush_accepted t fullQueue s Hne) as (Hw & Hq & _ & He & Hh & _).
    + now rewrite clickhouseOnly_write.
    + rewrite Hw, Hq, He, Hh, Eq. rewrite clickhouseOnly_write by exact Hc.
      repeat split; reflexivity.
Qed.

(** X3. With [batchSize] zero or negative a flush that is not a full
    flush pulls no item: it writes an empty batch, which is accepted, and
    leaves the queue as it was. *)
Theorem flush_with_no_batch_size_pulls_nothing t s :
  batchSize s <= 0 ->
  queue s t <> [] ->
  let s' := flush upsert env t false s in
  queue s' t = queue s t
  /\ written s' = (written s ++ [(t, [])])%list
  /\ world s' = world s
  /\ errorCounter s' = errorCounter s
  /\ heap s' = heap s.
Proof.
  intros Hb Hne. cbv zeta.
  assert (Hn : deleteCount false s (queue s t) = 0%nat)
    by (unfold deleteCount; lia).
  destruct (flush_accepted t false s Hne) as (Hw & Hq & Hwr & He & Hh & _).
  - rewrite Hn. reflexivity.
  - rewrite Hw, Hq, Hwr, He, Hh, Hn. cbn. repeat split; reflexivity.
Qed.

End WriteFacts.

(** ** What a cycle leaves alone *)

Section FrameFacts.
Import JS ErrorClassifier RecordCodec BatchWriter.

Context {World : Type}.
Variable upsert : TableName -> RecordInsert -> World -> World * option Value.
Variable env : Env.

Implicit Types (s : Writer World) (c : Cycle World) (t : TableName).

Lemma sameScheduler_loop t s r a c :
  sameScheduler s c -> sameScheduler s (attemptLoop upsert t r a c).2.
Proof.
  apply (attemptLoop_invariant upsert (sameScheduler s)).
  - intros c' H. rewrite request_snd. exact H.
  - intros e n c' H. unfold retry.
    destruct (isRetryableError e); [exact H|].
    destruct (isStringLengthError e).
    + destruct (handleStringLengthError _ _) as [[ri rq] h'].
      destruct (0 <? length rq)%nat; exact H.
    + destruct (isSizeError e && negb (hasBeenTruncated c')); [|exact H].
      destruct (truncateAll _ _) as [h' rs]. exact H.
Qed.

Lemma requeueOrDrop_scheduler t items s :
  writeInterval (requeueOrDrop t items s) = writeInterval s
  /\ isIntervalFlushInProgress (requeueOrDrop t items s)
     = isIntervalFlushInProgress s.
Proof.
  revert s. induction items as [|i items IH]; intros s; [split; reflexivity|].
  cbn [requeueOrDrop].
  match goal with |- context [requeueOrDrop t items ?s1] =>
    destruct (IH s1) as [-> ->]
  end.
  destruct (attempts i <? maxAttempts s); split; reflexivity.
Qed.

Lemma flush_frame t fullQueue s :
  let s' := flush upsert env t fullQueue s in
  (forall t', t' <> t -> queue s' t' = queue s t')
  /\ batchSize s' = batchSize s
  /\ maxAttempts s' = maxAttempts s
  /\ writeInterval s' = writeInterval s
  /\ intervalId s' = intervalId s
  /\ isIntervalFlushInProgress s' = isIntervalFlushInProgress s
  /\ requestCounter s' = requestCounter s.
Proof.
  cbv zeta. destruct (queue s t) as [|i q] eqn:Eq.
  { rewrite flush_empty by exact Eq. repeat split; reflexivity. }
  rewrite flush_nonempty by (rewrite Eq; discriminate). unfold backOff.
  set (c0 := startCycle t fullQueue s).
  assert (S0 : sameSettings s c0) by (repeat split).
  assert (O0 : otherQueues t s c0).
  { intros t' Ht'. unfold c0, startCycle. cbn. now rewrite decide_False. }
  assert (C0 : sameScheduler s c0) by (split; reflexivity).
  pose proof (sameSettings_loop upsert t s (numOfAttempts env) 0 c0 S0)
    as (Hm & Hb & _ & Hi & Hr).
  pose proof (otherQueues_loop upsert t s (numOfAttempts env) 0 c0 O0) as Ho.
  pose proof (sameScheduler_loop t s (numOfAttempts env) 0 c0 C0) as (Hw & Hf).
  destruct (attemptLoop upsert t (numOfAttempts env) 0 c0) as [[|err] c];
    cbn [fst snd] in *.
  - repeat split; assumption.
  - destruct (requeueOrDrop_spec upsert t (queueItems c) (writer c))
      as (_ & _ & R3 & R4 & R5 & _ & _ & _ & _ & R10 & R11).
    destruct (requeueOrDrop_scheduler t (queueItems c) (writer c)) as [R12 R13].
    rewrite R4, R5, R10, R11, R12, R13.
    repeat split; try assumption.
    intros t' Ht'. rewrite R3 by exact Ht'. now apply Ho.
Qed.

(** X4. A flush of one table leaves the queues of the other tables, the
    settings of the writer, the timer and the request counter as they
    were, whatever the store answers. *)
Theorem flush_touches_one_queue t fullQueue s :
  let s' := flush upsert env t fullQueue s in
  (forall t', t' <> t -> queue s' t' = queue s t')
  /\ batchSize s' = batchSize s
  /\ maxAttempts s' = maxAttempts s
  /\ writeInterval s' = writeInterval s
  /\ intervalId s' = intervalId s
  /\ isIntervalFlushInProgress s' = isIntervalFlushInProgress s
  /\ requestCounter s' = requestCounter s.
Proof. apply flush_frame. Qed.

(** *** Records *)

Lemma truncated_again (h0 : Heap) (o : option RecordInsert) l :
  o = h0 !! l \/ o = truncatedFields <$> h0 !! l ->
  truncatedFields <$> o = truncatedFields <$> h0 !! l.
Proof.
  intros [-> | ->]; [reflexivity|].
  destruct (h0 !! l); cbn; [|reflexivity]. now rewrite truncatedFields_idem.
Qed.

Lemma onlyTruncated_request t h0 refs c :
  onlyTruncated h0 refs c -> onlyTruncated h0 refs (request upsert t c).2.
Proof. intros H. rewrite request_snd. exact H. Qed.

Lemma onlyTruncated_retry t h0 refs e n c :
  onlyTruncated h0 refs c -> onlyTruncated h0 refs (retry t e n c).2.
Proof.
  intros (H1 & H2 & H3 & H4). destruct (classify e) eqn:E.
  - apply classify_Retryable in E. rewrite retry_retryable by exact E.
    repeat split; assumption.
  - rewrite retry_stringOverflow by exact E. cbv zeta.
    pose proof (handleStringLengthError_spec (queueItems c) (heap (writer c))) as Hs.
    pose proof (handleStringLengthError_app (queueItems c) (heap (writer c))) as Happ.
    destruct (handleStringLengthError _ _) as [[ri rq] h']. cbn [fst snd] in *.
    assert (Hsub : map data ri ⊆ refs).
    { intros x Hx. apply H4. rewrite <- Happ, map_app. apply elem_of_app. now left. }
    assert (Hheap : (forall l, l ∉ refs -> h' !! l = h0 !! l)
                    /\ (forall l, h' !! l = h0 !! l
                                  \/ h' !! l = truncatedFields <$> h0 !! l)).
    { destruct (queueItems c) as [|i1 [|i2 rest]].
      - destruct Hs as (_ & _ & ->). split; assumption.
      - destruct Hs as (_ & _ & ->).
        assert (Hin : data i1 ∈ refs) by (apply H4; cbn; apply list_elem_of_here).
        split; intros l.
        + intros Hl. rewrite lookup_alter_ne by (intros Heq; subst l; contradiction).
          now apply H1.
        + destruct (decide (data i1 = l)) as [<-|Hd].
          * right. rewrite lookup_alter_eq. apply truncated_again, H2.
          * rewrite lookup_alter_ne by exact Hd. apply H2.
      - destruct Hs as (_ & _ & ->). split; assumption. }
    destruct Hheap as [Hh1 Hh2].
    destruct (0 <? length rq)%nat; repeat split; assumption.
  - destruct (hasBeenTruncated c) eqn:F.
    + rewrite retry_oversized_again by assumption. repeat split; assumption.
    + rewrite retry_oversized_first by assumption.
      repeat split; try assumption; cbn [snd writer heap addEvent setHeap];
        intros l; rewrite truncateAll_lookup.
      * intros Hl. rewrite decide_False by (intros Hin; apply Hl, H3, Hin).
        now apply H1.
      * case_decide; [right; apply truncated_again, H2 | apply H2].
  - rewrite retry_fatal by exact E. repeat split; assumption.
Qed.

Lemma onlyTruncated_loop t h0 refs r a c :
  onlyTruncated h0 refs c -> onlyTruncated h0 refs (attemptLoop upsert t r a c).2.
Proof.
  apply (attemptLoop_invariant upsert (onlyTruncated h0 refs)).
  - intros c'. apply onlyTruncated_request.
  - intros e n c'. apply onlyTruncated_retry.
Qed.

(** X5. A flush changes records by truncation only, and only records of
    the items it pulled: every other record of the heap is as it was, no
    record appears or disappears, and a record keeps its [id] and its
    [project_id]. *)
Theorem flush_only_truncates_batch_records t fullQueue s (l : Ref) :
  let pulled := take (deleteCount fullQueue s (queue s t)) (queue s t) in
  let s' := flush upsert env t fullQueue s in
  (l ∉ map data pulled -> heap s' !! l = heap s !! l)
  /\ (heap s' !! l = heap s !! l
      \/ heap s' !! l = truncatedFields <$> heap s !! l)
  /\ (is_Some (heap s' !! l) <-> is_Some (heap s !! l))
  /\ (forall r', heap s' !! l = Some r' ->
        exists r, heap s !! l = Some r
                  /\ id r' = id r /\ project_id r' = project_id r).
Proof.
  cbv zeta.
  assert (H : (l ∉ map data (take (deleteCount fullQueue s (queue s t)) (queue s t))
               -> heap (flush upsert env t fullQueue s) !! l = heap s !! l)
              /\ (heap (flush upsert env t fullQueue s) !! l = heap s !! l
                  \/ heap (flush upsert env t fullQueue s) !! l
                     = truncatedFields <$> heap s !! l)).
  { destruct (queue s t) as [|i q] eqn:Eq.
    { rewrite flush_empty by exact Eq. split; [reflexivity | now left]. }
    rewrite flush_nonempty by (rewrite Eq; discriminate). unfold backOff.
    rewrite <- Eq.
    set (refs := map data (take (deleteCount fullQueue s (queue s t)) (queue s t))).
    assert (H0 : onlyTruncated (heap s) refs (startCycle t fullQueue s)).
    { unfold onlyTruncated, startCycle. cbn.
      split_and!; [reflexivity | now left | reflexivity | reflexivity]. }
    pose proof (onlyTruncated_loop t (heap s) refs (numOfAttempts env) 0 _ H0)
      as (H1 & H2 & _).
    destruct (attemptLoop upsert t _ _ _) as [[|err] c]; cbn [snd] in *.
    - split; [apply H1 | apply H2].
    - destruct (requeueOrDrop_spec upsert t (queueItems c) (writer c))
        as (_ & _ & _ & _ & _ & Hh & _).
      rewrite Hh. split; [apply H1 | apply H2]. }
  destruct H as [HA HB]. split_and!; [exact HA | exact HB | |].
  - destruct HB as [-> | ->]; [reflexivity|].
    rewrite fmap_is_Some. reflexivity.
  - intros r' Hr'. destruct HB as [HB | HB]; rewrite HB in Hr'.
    + exists r'. repeat split. exact Hr'.
    + destruct (heap s !! l) as [r|]; cbn in Hr'; [|discriminate].
      injection Hr' as <-. exists r. rewrite truncatedFields_spec.
      repeat split.
Qed.

End FrameFacts.

(** ** Where the items of a cycle go *)

Section AccountingFacts.
Import JS ErrorClassifier RecordCodec BatchWriter.

Context {World : Type}.
Variable upsert : TableName -> RecordInsert -> World -> World * option Value.
Variable env : Env.

Implicit Types (s : Writer World) (c : Cycle World) (t : TableName).

Lemma filter_split_length {A} (p : A -> bool) (l : list A) :
  (length (List.filter p l) + length (List.filter (fun x => negb (p x)) l)
   = length l)%nat.
Proof.
  induction l as [|x l IH]; [reflexivity|]. cbn [List.filter].
  destruct (p x); cbn [negb length]; lia.
Qed.

(** X6. No item of a flushed queue goes missing: after a flush the items
    still queued, the items counted as dropped and, when the write was
    accepted, the items that were in flight add up to the items queued
    before.  A flush never makes the queue longer and never lowers the
    drop counter. *)
Theorem flush_accounts_for_every_item t fullQueue s :
  queue s t <> [] ->
  let out := backOff upsert env t (startCycle t fullQueue s) in
  let delivered := match out.1 with
                   | Resolved => length (queueItems out.2)
                   | Rejected _ => 0%nat
                   end in
  let s' := flush upsert env t fullQueue s in
  (length (queue s' t) + (errorCounter s' - errorCounter s) + delivered
   = length (queue s t))%nat
  /\ (errorCounter s <= errorCounter s')%nat
  /\ (length (queue s' t) <= length (queue s t))%nat.
Proof.
  intros Hne. cbv zeta.
  destruct (flush_cycle upsert env t fullQueue s Hne) as (front & Hp & _ & _ & Hout).
  pose proof (f_equal length Hp) as Hlen. rewrite length_app in Hlen.
  pose proof (take_drop (deleteCount fullQueue s (queue s t)) (queue s t)) as Htd.
  apply (f_equal length) in Htd. rewrite length_app in Htd.
  destruct (backOff upsert env t (startCycle t fullQueue s)) as [[|err] c];
    cbn [fst snd] in *.
  - destruct Hout as [-> ->]. rewrite length_app. lia.
  - destruct Hout as [-> ->]. rewrite !length_app, length_map.
    pose proof (filter_split_length (mayRetry s) (queueItems c)). lia.
Qed.

Lemma aligned_loop t r a c :
  aligned c -> aligned (attemptLoop upsert t r a c).2.
Proof.
  apply (attemptLoop_invariant upsert (fun c => aligned c)).
  - intros c' H. rewrite request_snd. exact H.
  - intros e n c' H. unfold aligned in *. destruct (classify e) eqn:E.
    + apply classify_Retryable in E. now rewrite retry_retryable.
    + now rewrite retry_stringOverflow.
    + destruct (hasBeenTruncated c') eqn:F.
      * now rewrite retry_oversized_again.
      * now rewrite retry_oversized_first.
    + now rewrite retry_fatal.
Qed.

Lemma attemptLoop_last_write t r a c :
  (attemptLoop upsert t r a c).1 = Resolved ->
  exists earlier,
    written (writer (attemptLoop upsert t r a c).2)
    = (written (writer c) ++ earlier
         ++ [(t, payload (attemptLoop upsert t r a c).2)])%list.
Proof.
  revert a c. induction r as [|r IH]; intros a c; [discriminate|].
  destruct (request upsert t c).1 as [e|] eqn:E.
  - rewrite (attemptLoop_rejected upsert _ _ _ _ e E). cbv zeta.
    destruct (negb _ || _); [discriminate|].
    intros Hres. destruct (IH _ _ Hres) as (earlier & Hw).
    rewrite Hw, written_retry.
    destruct (request_frame upsert t c) as (_ & _ & _ & _ & _ & Hwr & _).
    rewrite Hwr. exists ((t, payload c) :: earlier).
    now rewrite <- app_assoc.
  - rewrite attemptLoop_resolved by exact E. intros _.
    exists []. rewrite request_snd. reflexivity.
Qed.

(** X7. When the write of a cycle is accepted, the last batch handed to
    the store is made of the records of the items then in flight, one per
    item and in their order, as the heap has them after the cycle. *)
Theorem accepted_write_carries_the_items_in_flight t fullQueue s :
  queue s t <> [] ->
  let out := backOff upsert env t (startCycle t fullQueue s) in
  let s' := flush upsert env t fullQueue s in
  out.1 = Resolved ->
  exists earlier,
    written s'
    = (written s ++ earlier
         ++ [(t, deref (heap s') (map data (queueItems out.2)))])%list.
Proof.
  intros Hne. cbv zeta. rewrite flush_nonempty by exact Hne. unfold backOff.
  intros Hres.
  destruct (attemptLoop_last_write t _ 0 _ Hres) as (earlier & Hw).
  pose proof (aligned_loop t (numOfAttempts env) 0 (startCycle t fullQueue s)
                eq_refl) as Ha.
  destruct (attemptLoop upsert t _ _ _) as [out c]. cbn [fst snd] in *. subst out.
  exists earlier. rewrite Hw. unfold payload. now rewrite Ha.
Qed.

(** A cycle whose first write throws an unknown error: one write, then
    the catch block on the whole batch. *)
Lemma flush_fatal t fullQueue s e :
  queue s t <> [] ->
  let n := deleteCount fullQueue s (queue s t) in
  let records := deref (heap s) (map data (take n (queue s t))) in
  (writeToClickhouse upsert t records (world s)).2 = Some e ->
  classify e = Fatal ->
  let s' := flush upsert env t fullQueue s in
  queue s' t
  = (drop n (queue s t)
       ++ map requeued (List.filter (mayRetry s) (take n (queue s t))))%list
  /\ errorCounter s'
     = (errorCounter s
        + length (List.filter (fun i => negb (mayRetry s i)) (take n (queue s t))))%nat
  /\ heap s' = heap s
  /\ written s' = (written s ++ [(t, records)])%list
  /\ maxAttempts s' = maxAttempts s
  /\ batchSize s' = batchSize s.
Proof.
  intros Hne n records Hw Hc. cbv zeta.
  rewrite flush_nonempty by exact Hne. unfold backOff.
  pose proof (numOfAttempts_pos env) as Hpos.
  destruct (numOfAttempts env) as [|m]; [lia|].
  assert (E : (request upsert t (startCycle t fullQueue s)).1 = Some e).
  { rewrite request_fst. exact Hw. }
  rewrite (attemptLoop_stops upsert t m 0 _ e E) by now apply retry_fatal.
  rewrite request_snd.
  match goal with |- context [requeueOrDrop t ?items ?s1] =>
    destruct (requeueOrDrop_spec upsert t items s1)
      as (R1 & R2 & _ & R4 & R5 & R6 & _ & R8 & _)
  end.
  rewrite R1, R2, R4, R5, R6, R8. cbn.
  rewrite decide_True by reflexivity. repeat split; reflexivity.
Qed.

(** One failing cycle on a queue of one item. *)
Lemma flush_fatal_single t fullQueue s item r :
  clickhouseOnly t = false ->
  alwaysFatal upsert t ->
  queue s t = [item] ->
  heap s !! data item = Some r ->
  fullQueue = true \/ 1 <= batchSize s ->
  let s' := flush upsert env t fullQueue s in
  queue s' t = (if attempts item <? maxAttempts s then [requeued item] else [])
  /\ errorCounter s'
     = (errorCounter s + if (attempts item <? maxAttempts s)%Z then 0 else 1)%nat
  /\ heap s' = heap s
  /\ length (written s') = S (length (written s))
  /\ maxAttempts s' = maxAttempts s
  /\ batchSize s' = batchSize s.
Proof.
  intros Hpg Hfatal Hq Hr Hfull. cbv zeta.
  assert (Hne : queue s t <> []) by (rewrite Hq; discriminate).
  assert (Hn : take (deleteCount fullQueue s (queue s t)) (queue s t) = [item]
               /\ drop (deleteCount fullQueue s (queue s t)) (queue s t) = []).
  { rewrite Hq. unfold deleteCount.
    destruct Hfull as [-> | Hb]; [split; reflexivity|].
    destruct fullQueue; [split; reflexivity|].
    split; [apply take_ge | apply drop_ge]; cbn; lia. }
  destruct Hn as [Htake Hdrop].
  destruct (Hfatal r (world s)) as (e & He & Hc).
  destruct (flush_fatal t fullQueue s e Hne) as (H1 & H2 & H3 & H4 & H5 & H6).
  - rewrite Htake. cbn [map]. unfold deref. cbn [omap list_omap]. rewrite Hr.
    cbn [writeToClickhouse].
    replace (writeRecordToPostgres upsert t r (world s)) with (upsert t r (world s))
      by (destruct t; try discriminate; reflexivity).
    destruct (upsert t r (world s)) as [w' o]. cbn in He. now subst o.
  - exact Hc.
  - rewrite H1, H2, H3, H4, H5, H6, Htake, Hdrop, length_app.
    cbn [List.filter app map length]. unfold mayRetry.
    destruct (attempts item <? maxAttempts s); cbn; repeat split; lia.
Qed.

(** X8. An item whose every write throws an unknown error, alone in the
    queue of a table kept in PostgreSQL, gets one write per cycle: it
    comes back with one more attempt after each cycle until its attempts
    are [maxAttempts], and the cycle after that drops it and counts one
    drop; [createdAt] and the record reference never change. *)
Theorem failing_item_is_dropped_after_maxAttempts t fullQueue s item r :
  clickhouseOnly t = false ->
  alwaysFatal upsert t ->
  queue s t = [item] ->
  heap s !! data item = Some r ->
  fullQueue = true \/ 1 <= batchSize s ->
  attempts item <= maxAttempts s ->
  let cycles k := Nat.iter k (flush upsert env t fullQueue) s in
  let last := Z.to_nat (maxAttempts s - attempts item) in
  (forall k, (k <= last)%nat ->
     queue (cycles k) t
     = [mkItem (createdAt item) (attempts item + Z.of_nat k) (data item)]
     /\ errorCounter (cycles k) = errorCounter s
     /\ length (written (cycles k)) = (length (written s) + k)%nat)
  /\ queue (cycles (S last)) t = []
  /\ errorCounter (cycles (S last)) = S (errorCounter s)
  /\ length (written (cycles (S last))) = (length (written s) + S last)%nat.
Proof.
  intros Hpg Hfatal Hq Hr Hfull Hle. cbv zeta.
  set (last := Z.to_nat (maxAttempts s - attempts item)).
  assert (Hk : forall k, (k <= last)%nat ->
            let sk := Nat.iter k (flush upsert env t fullQueue) s in
            queue sk t
            = [mkItem (createdAt item) (attempts item + Z.of_nat k) (data item)]
            /\ errorCounter sk = errorCounter s
            /\ length (written sk) = (length (written s) + k)%nat
            /\ heap sk = heap s
            /\ maxAttempts sk = maxAttempts s
            /\ batchSize sk = batchSize s).
  { induction k as [|k IH]; intros Hkl; cbv zeta.
    - cbn [Nat.iter nat_rect]. rewrite Hq, Z.add_0_r, Nat.add_0_r.
      destruct item; repeat split; reflexivity.
    - rewrite Nat.iter_succ. destruct (IH ltac:(lia)) as (I1 & I2 & I3 & I4 & I5 & I6).
      set (sk := Nat.iter k (flush upsert env t fullQueue) s) in *.
      destruct (flush_fatal_single t fullQueue sk _ r Hpg Hfatal I1)
        as (F1 & F2 & F3 & F4 & F5 & F6).
      + cbn [data]. now rewrite I4.
      + rewrite I6. exact Hfull.
      + cbn [attempts createdAt data requeued] in *.
        assert (Hlt : (attempts item + Z.of_nat k <? maxAttempts sk) = true).
        { apply Z.ltb_lt. rewrite I5. unfold last in Hkl. lia. }
        rewrite Hlt in F1, F2. rewrite F1, F2, F3, F4, F5, F6, I2, I3, I4, I5, I6.
        unfold requeued. cbn [attempts createdAt data].
        repeat split; try reflexivity; try lia.
        do 2 f_equal. lia. }
  split; [|].
  - intros k Hkl. destruct (Hk k Hkl) as (H1 & H2 & H3 & _). repeat split; assumption.
  - rewrite Nat.iter_succ. destruct (Hk last ltac:(lia)) as (I1 & I2 & I3 & I4 & I5 & I6).
    set (sk := Nat.iter last (flush upsert env t fullQueue) s) in *.
    destruct (flush_fatal_single t fullQueue sk _ r Hpg Hfatal I1)
      as (F1 & F2 & F3 & F4 & F5 & F6).
    + cbn [data]. now rewrite I4.
    + rewrite I6. exact Hfull.
    + cbn [attempts createdAt data] in *.
      assert (Hge : (attempts item + Z.of_nat last <? maxAttempts sk) = false).
      { apply Z.ltb_ge. rewrite I5. unfold last. lia. }
      rewrite Hge in F1, F2. rewrite F1, F2, F4, I2, I3.
      repeat split; lia.
Qed.

End AccountingFacts.

(** ** Splitting, matching and truncating *)

Section CodecAndClassifierFacts.
Import JS ErrorClassifier RecordCodec BatchWriter.

(** X9. [handleStringLengthError] divides a batch in two without
    reordering or losing an item, and a batch that is not empty keeps at
    least one item for the next attempt; a batch of more than one item
    gets strictly smaller and gives at least one item back, and then no
    record is changed. *)
Theorem handleStringLengthError_keeps_an_item (items : list QueueItem) (h : Heap) :
  items <> [] ->
  let retryItems := (handleStringLengthError items h).1.1 in
  let requeueItems := (handleStringLengthError items h).1.2 in
  (retryItems ++ requeueItems)%list = items
  /\ retryItems <> []
  /\ length retryItems
     = (if (length items =? 1)%nat then 1 else length items / 2)%nat
  /\ ((1 < length items)%nat ->
      (length retryItems < length items)%nat
      /\ requeueItems <> []
      /\ (handleStringLengthError items h).2 = h).
Proof.
  intros Hne. cbv zeta.
  pose proof (handleStringLengthError_spec items h) as Hs.
  pose proof (handleStringLengthError_app items h) as Happ.
  destruct (handleStringLengthError items h) as [[ri rq] h']. cbn [fst snd] in *.
  split; [exact Happ|].
  destruct items as [|i1 [|i2 rest]]; [now elim Hne | |].
  - destruct Hs as (-> & -> & ->). cbn. repeat split; try discriminate; lia.
  - destruct Hs as (-> & -> & ->).
    set (items := i1 :: i2 :: rest) in *.
    assert (Hlen : (2 <= length items)%nat) by (cbn; lia).
    assert (Hhalf : (1 <= length items / 2 < length items)%nat).
    { split; [apply Nat.div_le_lower_bound; lia | apply Nat.div_lt; lia]. }
    assert (Hl1 : (length items =? 1)%nat = false) by (apply Nat.eqb_neq; lia).
    rewrite Hl1, length_take.
    split_and!; try lia.
    + intros E. apply (f_equal length) in E. rewrite length_take in E.
      cbn [length] in E. lia.
    + intros _. split_and!; [lia | | reflexivity].
      intros E. apply (f_equal length) in E. rewrite length_drop in E.
      cbn [length] in E. lia.
Qed.

Lemma toLowerCase_append a b : toLowerCase (a +:+ b) = toLowerCase a +:+ toLowerCase b.
Proof.
  induction a as [|c a IH]; [reflexivity|].
  rewrite append_cons. cbn [toLowerCase]. now rewrite append_cons, IH.
Qed.

Lemma prefix_append sub rest : String.prefix sub (sub +:+ rest) = true.
Proof.
  induction sub as [|c sub IH]; [now destruct rest|].
  rewrite append_cons. cbn [String.prefix].
  destruct (Ascii.ascii_dec c c); [exact IH | congruence].
Qed.

Lemma includes_prefix s sub : String.prefix sub s = true -> includes s sub = true.
Proof. intros H. destruct s; cbn [includes]; now rewrite H. Qed.

Lemma includes_middle pre sub post : includes (pre +:+ sub +:+ post) sub = true.
Proof.
  induction pre as [|c pre IH].
  - rewrite append_nil. apply includes_prefix, prefix_append.
  - rewrite append_cons. cbn [includes].
    destruct (String.prefix sub _); [reflexivity | exact IH].
Qed.

(** X10. An error object is retryable as soon as its message has the
    phrase "socket hang up" somewhere, in any mix of upper and lower case
    and whatever else the message says: the callback then asks for another
    attempt and changes neither the batch nor a record nor the queue. *)
Theorem socket_hang_up_anywhere_is_retryable {World : Type}
    (pre phrase post : string) t attemptNumber (c : Cycle World) :
  toLowerCase phrase = "socket hang up" ->
  let e := Object (Some (pre +:+ phrase +:+ post)) in
  classify e = Retryable
  /\ (retry t e attemptNumber c).1 = true
  /\ queueItems (retry t e attemptNumber c).2 = queueItems c
  /\ recordsToWrite (retry t e attemptNumber c).2 = recordsToWrite c
  /\ hasBeenTruncated (retry t e attemptNumber c).2 = hasBeenTruncated c
  /\ heap (writer (retry t e attemptNumber c).2) = heap (writer c)
  /\ queue (writer (retry t e attemptNumber c).2) = queue (writer c).
Proof.
  intros Hp. cbv zeta.
  assert (Hr : isRetryableError (Object (Some (pre +:+ phrase +:+ post))) = true).
  { unfold isRetryableError. rewrite notAnObject_Object. cbn [errorMessage].
    rewrite !toLowerCase_append, Hp. apply includes_middle. }
  split; [now apply classify_Retryable|].
  rewrite retry_retryable by exact Hr. repeat split; reflexivity.
Qed.

Lemma length_substring_min n s :
  String.length (String.substring 0 n s) = Nat.min n (String.length s).
Proof.
  revert s. induction n as [|n IH]; intros [|c s];
    cbn [String.length String.substring Nat.min]; try reflexivity.
  now rewrite IH.
Qed.

Lemma prefix_substring n s : String.prefix (String.substring 0 n s) s = true.
Proof.
  revert s. induction n as [|n IH]; intros [|c s];
    cbn [String.substring String.prefix]; try reflexivity.
  destruct (Ascii.ascii_dec c c); [apply IH | congruence].
Qed.

Lemma substring_append_exact a b :
  String.substring 0 (String.length a) (a +:+ b) = a.
Proof.
  induction a as [|c a IH].
  - rewrite append_nil. now destruct b.
  - rewrite append_cons. cbn [String.length String.substring]. now rewrite IH.
Qed.

(** X11. A field over one mebibyte is cut by [truncateField], and so by
    the metadata loop and by the assignments to [input] and [output], to
    exactly 512038 characters: its own first 512000 followed by the 38 of
    the marker.  The result is shorter than the field and starts as the
    field did. *)
Theorem truncated_field_has_fixed_length (v : string) :
  len v > maxFieldSize ->
  let v' := substring0 keptPrefix v +:+ truncationMessage in
  truncateField (Some v) = Some v'
  /\ truncateEntry v = v'
  /\ (forall r, input r = Some v -> input (truncatedFields r) = Some v')
  /\ (forall r, output r = Some v -> output (truncatedFields r) = Some v')
  /\ (forall r m k, metadata r = Some m -> m !! k = Some v ->
        m !! "__proto__" = None ->
        metadata (truncatedFields r) = Some (truncateMetadata m)
        /\ truncateMetadata m !! k = Some v')
  /\ len (substring0 keptPrefix v) = keptPrefix
  /\ len v' = 512038
  /\ len v' < len v
  /\ String.prefix (substring0 keptPrefix v) v = true
  /\ substring0 keptPrefix v' = substring0 keptPrefix v.
Proof.
  intros Hv. cbv zeta.
  assert (Hk : len (substring0 keptPrefix v) = keptPrefix).
  { unfold len, substring0 in *. rewrite length_substring_min.
    unfold keptPrefix, maxFieldSize in *. lia. }
  assert (Hr : truncationRule v = substring0 keptPrefix v +:+ truncationMessage).
  { unfold truncationRule. destruct (len v >? maxFieldSize) eqn:E; [reflexivity|].
    z_gtb E. lia. }
  assert (Ho : oversized (Some v) = true).
  { rewrite oversized_Some, Z.gtb_ltb. apply Z.ltb_lt. lia. }
  rewrite len_append, Hk, len_truncationMessage.
  split_and!; try reflexivity; try (unfold keptPrefix, maxFieldSize in *; lia).
  - rewrite <- Hr. now apply truncateField_oversized.
  - rewrite <- Hr. apply truncateEntry_rule.
  - intros r Hi. rewrite truncatedFields_spec. cbn [input].
    now rewrite Hi, <- Hr.
  - intros r Hi. rewrite truncatedFields_spec. cbn [output].
    now rewrite Hi, <- Hr.
  - intros r m k Hm Hmk _. rewrite truncatedFields_spec. cbn [metadata].
    rewrite Hm, truncateMetadata_fmap. cbn. split; [reflexivity|].
    now rewrite lookup_fmap, Hmk, <- Hr.
  - apply prefix_substring.
  - unfold substring0 at 1.
    replace (Z.to_nat keptPrefix)
      with (String.length (substring0 keptPrefix v))
      by (unfold len in Hk; lia).
    apply substring_append_exact.
Qed.


End CodecAndClassifierFacts.

(** ** The timer, the shutdown and all the tables *)

Section AllTablesFacts.
Import JS ErrorClassifier RecordCodec BatchWriter.

Context {World : Type}.
Variable upsert : TableName -> RecordInsert -> World -> World * option Value.
Variable env : Env.

Implicit Types (s : Writer World) (c : Cycle World) (t : TableName).

Abbreviation flushTables fullQueue ts s :=
  (foldl (fun acc t => flush upsert env t fullQueue acc) s ts).

Lemma flushTables_frame fullQueue (ts : list TableName) s :
  batchSize (flushTables fullQueue ts s) = batchSize s
  /\ maxAttempts (flushTables fullQueue ts s) = maxAttempts s
  /\ writeInterval (flushTables fullQueue ts s) = writeInterval s
  /\ intervalId (flushTables fullQueue ts s) = intervalId s
  /\ isIntervalFlushInProgress (flushTables fullQueue ts s)
     = isIntervalFlushInProgress s
  /\ requestCounter (flushTables fullQueue ts s) = requestCounter s
  /\ (forall t, t ∉ ts -> queue (flushTables fullQueue ts s) t = queue s t).
Proof.
  revert s. induction ts as [|t0 ts IH]; intros s.
  - cbn. repeat split; reflexivity.
  - cbn [foldl].
    destruct (IH (flush upsert env t0 fullQueue s)) as (I1 & I2 & I3 & I4 & I5 & I6 & I7).
    destruct (flush_frame upsert env t0 fullQueue s) as (F0 & F1 & F2 & F3 & F4 & F5 & F6).
    rewrite I1, I2, I3, I4, I5, I6, F1, F2, F3, F4, F5, F6.
    repeat split; try reflexivity.
    intros t Ht. rewrite I7 by (intros Hin; apply Ht; now apply list_elem_of_further).
    apply F0. intros ->. apply Ht, list_elem_of_here.
Qed.

Lemma flush_accepts t fullQueue s :
  accepts upsert t ->
  queue (flush upsert env t fullQueue s) t
  = drop (deleteCount fullQueue s (queue s t)) (queue s t).
Proof.
  intros Ha. destruct (queue s t) as [|i q] eqn:Eq.
  - rewrite flush_empty by exact Eq. now rewrite Eq, drop_nil.
  - assert (Hne : queue s t <> []) by (rewrite Eq; discriminate).
    destruct (flush_accepted upsert env t fullQueue s Hne) as (_ & Hq & _).
    + now apply accepts_write.
    + now rewrite Hq, Eq.
Qed.

Lemma flushTables_accepts fullQueue (ts : list TableName) t :
  accepts upsert t ->
  NoDup ts ->
  forall s,
    queue (flushTables fullQueue ts s) t
    = if decide (t ∈ ts)
      then drop (deleteCount fullQueue s (queue s t)) (queue s t)
      else queue s t.
Proof.
  intros Ha Hnd. induction Hnd as [|t0 ts Hnotin Hnd IH]; intros s.
  - cbn. now rewrite decide_False by apply not_elem_of_nil.
  - cbn [foldl]. destruct (decide (t = t0)) as [->|Hd].
    + rewrite decide_True by apply list_elem_of_here.
      destruct (flushTables_frame fullQueue ts (flush upsert env t0 fullQueue s))
        as (_ & _ & _ & _ & _ & _ & Hq).
      rewrite Hq by exact Hnotin. now apply flush_accepts.
    + rewrite IH.
      destruct (flush_frame upsert env t0 fullQueue s) as (F0 & F1 & _).
      rewrite F0 by exact Hd. unfold deleteCount. rewrite F1.
      destruct (decide (t ∈ ts)) as [Hin|Hnin].
      * now rewrite decide_True by now apply list_elem_of_further.
      * rewrite decide_False; [reflexivity|].
        intros Hin. apply elem_of_cons in Hin as [->|Hin]; contradiction.
Qed.

Lemma setInterval_fields (flag : bool) (handle : option Z) s :
  isIntervalFlushInProgress (setInterval flag handle s) = flag
  /\ intervalId (setInterval flag handle s) = handle
  /\ requestCounter (setInterval flag handle s) = requestCounter s
  /\ batchSize (setInterval flag handle s) = batchSize s
  /\ maxAttempts (setInterval flag handle s) = maxAttempts s
  /\ queue (setInterval flag handle s) = queue s.
Proof. repeat split; reflexivity. Qed.

Lemma incrementRequest_fields s :
  requestCounter (incrementRequest s) = S (requestCounter s)
  /\ intervalId (incrementRequest s) = intervalId s
  /\ batchSize (incrementRequest s) = batchSize s
  /\ maxAttempts (incrementRequest s) = maxAttempts s
  /\ queue (incrementRequest s) = queue s.
Proof. repeat split; reflexivity. Qed.

Lemma flushAll_unfold fullQueue s :
  flushAll upsert env fullQueue s
  = flushTables fullQueue allTables (incrementRequest s).
Proof. reflexivity. Qed.

Lemma intervalTick_idle s :
  isIntervalFlushInProgress s = false ->
  intervalTick upsert env s
  = setInterval false
      (intervalId (flushAll upsert env false (setInterval true (intervalId s) s)))
      (flushAll upsert env false (setInterval true (intervalId s) s)).
Proof. intros H. unfold intervalTick. now rewrite H. Qed.

Lemma intervalTick_busy s :
  isIntervalFlushInProgress s = true -> intervalTick upsert env s = s.
Proof. intros H. unfold intervalTick. now rewrite H. Qed.

Lemma shutdown_unfold s :
  exists s1,
    shutdown upsert env s = flushTables true allTables (incrementRequest s1)
    /\ intervalId s1 = None
    /\ queue s1 = queue s
    /\ maxAttempts s1 = maxAttempts s
    /\ errorCounter s1 = errorCounter s
    /\ written s1 = written s.
Proof.
  unfold shutdown, flushAll. destruct (intervalId s) eqn:E.
  - eexists. split; [reflexivity|]. repeat split; reflexivity.
  - exists s. split; [reflexivity|]. repeat split; (reflexivity || exact E).
Qed.

Lemma attemptsInRange_same s s1 :
  queue s1 = queue s -> maxAttempts s1 = maxAttempts s ->
  attemptsInRange s -> attemptsInRange s1.
Proof. intros Hq Hm H t. rewrite Hq, Hm. apply H. Qed.

(** X13. A failure in one table does not keep another from being
    flushed: whatever the store answers for the other tables, [flushAll]
    takes from a table whose writes are accepted the items a flush of it
    alone would take, and [shutdown] leaves such a table empty. *)
Theorem flushAll_isolates_the_tables t fullQueue s :
  accepts upsert t ->
  queue (flushAll upsert env fullQueue s) t
  = drop (deleteCount fullQueue s (queue s t)) (queue s t)
  /\ queue (shutdown upsert env s) t = [].
Proof.
  intros Ha. split.
  - rewrite flushAll_unfold,
      (flushTables_accepts fullQueue allTables t Ha NoDup_allTables).
    rewrite decide_True by apply elem_of_allTables.
    generalize (incrementRequest_fields s). generalize (incrementRequest s).
    intros s1 (_ & _ & B3 & _ & B5). unfold deleteCount. now rewrite B3, B5.
  - destruct (shutdown_unfold s) as (s1 & -> & _).
    rewrite (flushTables_accepts true allTables t Ha NoDup_allTables).
    rewrite decide_True by apply elem_of_allTables.
    unfold deleteCount. apply drop_ge. lia.
Qed.

(** X14. One firing of the timer: nothing at all while the previous
    sweep is marked in progress; otherwise one request is counted, the
    mark is cleared again at the end, the settings and the timer handle
    stay, and a table whose writes are accepted loses its first
    [batchSize] items and no more. *)
Theorem intervalTick_takes_one_batch_per_table s :
  (isIntervalFlushInProgress s = true -> intervalTick upsert env s = s)
  /\ (isIntervalFlushInProgress s = false ->
      let s' := intervalTick upsert env s in
      isIntervalFlushInProgress s' = false
      /\ requestCounter s' = S (requestCounter s)
      /\ intervalId s' = intervalId s
      /\ batchSize s' = batchSize s
      /\ maxAttempts s' = maxAttempts s
      /\ forall t, accepts upsert t ->
           queue s' t = drop (Z.to_nat (batchSize s)) (queue s t)).
Proof.
  split; [apply intervalTick_busy|]. intros Hf.
  rewrite (intervalTick_idle s Hf), flushAll_unfold.
  generalize (setInterval_fields true (intervalId s) s).
  generalize (setInterval true (intervalId s) s). intros s0 (_ & A2 & A3 & A4 & A5 & A6).
  pose proof (flushTables_frame false allTables (incrementRequest s0)) as F.
  pose proof (fun t Ha => flushTables_accepts false allTables t Ha NoDup_allTables
                            (incrementRequest s0)) as Q.
  unfold deleteCount in Q.
  generalize dependent (incrementRequest_fields s0).
  generalize dependent (incrementRequest s0). intros s1 F Q (B1 & B2 & B3 & B4 & B5).
  generalize dependent (flushTables false allTables s1).
  intros s2 (F1 & F2 & _ & F4 & _ & F6 & _) Q.
  generalize (setInterval_fields false (intervalId s2) s2).
  generalize (setInterval false (intervalId s2) s2).
  intros s3 (C1 & C2 & C3 & C4 & C5 & C6).
  cbv zeta. split_and!.
  - exact C1.
  - now rewrite C3, F6, B1, A3.
  - now rewrite C2, F4, B2, A2.
  - now rewrite C4, F1, B3, A4.
  - now rewrite C5, F2, B4, A5.
  - intros t Ha. rewrite C6, (Q t Ha).
    rewrite decide_True by apply elem_of_allTables.
    now rewrite B3, B5, A4, A6.
Qed.

Lemma attemptsInRange_flush t fullQueue s :
  attemptsInRange s -> attemptsInRange (flush upsert env t fullQueue s).
Proof.
  intros Hb. destruct (queue s t) as [|i0 q0] eqn:Eq.
  { now rewrite flush_empty. }
  assert (Hne : queue s t <> []) by (rewrite Eq; discriminate).
  destruct (flush_cycle upsert env t fullQueue s Hne) as (front & Hp & Hm & Ho & Hout).
  intros t'. rewrite Hm. destruct (decide (t' = t)) as [->|Hd].
  - pose proof (Hb t) as Ht.
    assert (Htake : Forall (fun i => 1 <= attempts i <= maxAttempts s)
                      (take (deleteCount fullQueue s (queue s t)) (queue s t)))
      by now apply Forall_take.
    rewrite Hp in Htake. apply Forall_app in Htake as [Hret Hfront].
    assert (Hdrop : Forall (fun i => 1 <= attempts i <= maxAttempts s)
                      (drop (deleteCount fullQueue s (queue s t)) (queue s t)))
      by now apply Forall_drop.
    destruct (backOff upsert env t _) as [[|err] c]; cbn [fst snd] in *.
    + destruct Hout as [-> _]. apply Forall_app. now split.
    + destruct Hout as [-> _]. rewrite !Forall_app. repeat split; try assumption.
      apply Forall_forall. intros x Hx.
      apply list_elem_of_fmap in Hx as (i & -> & Hi).
      apply list_elem_of_In, List.filter_In in Hi as [Hin Hi].
      rewrite Forall_forall in Hret. apply list_elem_of_In, Hret in Hin.
      unfold mayRetry in Hi. apply Z.ltb_lt in Hi. cbn. lia.
  - rewrite Ho by exact Hd. apply Hb.
Qed.

Lemma attemptsInRange_flushTables fullQueue (ts : list TableName) s :
  attemptsInRange s -> attemptsInRange (flushTables fullQueue ts s).
Proof.
  revert s. induction ts as [|t0 ts IH]; intros s Hs; [exact Hs|].
  cbn [foldl]. now apply IH, attemptsInRange_flush.
Qed.

(** X15. Every queued item has between one and [maxAttempts] attempts:
    the writer starts that way and a flush, an enqueue (when [maxAttempts]
    is at least one), a firing of the timer and the shutdown keep it so. *)
Theorem attempts_stay_in_range s :
  attemptsInRange s ->
  (forall t fullQueue, attemptsInRange (flush upsert env t fullQueue s))
  /\ (forall t record now,
        1 <= maxAttempts s ->
        attemptsInRange (addToQueue upsert env t record now s))
  /\ attemptsInRange (intervalTick upsert env s)
  /\ attemptsInRange (shutdown upsert env s)
  /\ (forall (w : World) h handle, attemptsInRange (construct env w h handle)).
Proof.
  intros Hs. split_and!.
  - intros t fullQueue. now apply attemptsInRange_flush.
  - intros t record now H1. unfold addToQueue.
    assert (Hs1 : attemptsInRange
                    (setQueue t (queue s t ++ [mkItem now 1 record]) s)).
    { intros t'. cbn. case_decide.
      - subst. apply Forall_app. split; [apply Hs|].
        repeat constructor; cbn; lia.
      - apply Hs. }
    destruct (_ >=? _); [now apply attemptsInRange_flush | exact Hs1].
  - destruct (isIntervalFlushInProgress s) eqn:Hf.
    + now rewrite intervalTick_busy.
    + rewrite (intervalTick_idle s Hf), flushAll_unfold.
      eapply attemptsInRange_same;
        [apply setInterval_fields | apply setInterval_fields |].
      apply attemptsInRange_flushTables.
      eapply attemptsInRange_same;
        [apply incrementRequest_fields | apply incrementRequest_fields |].
      eapply attemptsInRange_same;
        [apply setInterval_fields | apply setInterval_fields | exact Hs].
  - destruct (shutdown_unfold s) as (s1 & -> & _ & Hq & Hm & _).
    apply attemptsInRange_flushTables.
    eapply attemptsInRange_same;
      [apply incrementRequest_fields | apply incrementRequest_fields |].
    eapply attemptsInRange_same; [exact Hq | exact Hm | exact Hs].
  - intros w h handle t. constructor.
Qed.

Lemma flush_shrinks t fullQueue s :
  (length (queue (flush upsert env t fullQueue s) t) <= length (queue s t))%nat
  /\ (errorCounter s <= errorCounter (flush upsert env t fullQueue s))%nat
  /\ (length (written (flush upsert env t fullQueue s))
      <= length (written s) + numOfAttempts env)%nat.
Proof.
  destruct (queue s t) as [|i0 q0] eqn:Eq.
  { rewrite flush_empty by exact Eq. rewrite Eq. cbn. lia. }
  assert (Hne : queue s t <> []) by (rewrite Eq; discriminate).
  rewrite <- Eq.
  destruct (flush_cycle upsert env t fullQueue s Hne) as (front & Hp & _ & _ & Hout).
  pose proof (f_equal length Hp) as Hlen. rewrite length_app in Hlen.
  pose proof (take_drop (deleteCount fullQueue s (queue s t)) (queue s t)) as Htd.
  apply (f_equal length) in Htd. rewrite length_app in Htd.
  assert (Hw : (length (written (flush upsert env t fullQueue s))
                <= length (written s) + numOfAttempts env)%nat).
  { rewrite flush_nonempty by exact Hne. unfold backOff.
    pose proof (attemptLoop_writes upsert t (numOfAttempts env) 0
                  (startCycle t fullQueue s)) as H.
    destruct (attemptLoop upsert t _ _ _) as [[|err] c]; cbn [snd] in H; [exact H|].
    destruct (requeueOrDrop_spec upsert t (queueItems c) (writer c))
      as (_ & _ & _ & _ & _ & _ & _ & Hwr & _).
    now rewrite Hwr. }
  destruct (backOff upsert env t (startCycle t fullQueue s)) as [[|err] c];
    cbn [fst snd] in *.
  - destruct Hout as [-> ->]. rewrite length_app. lia.
  - destruct Hout as [-> ->]. rewrite !length_app, length_map.
    pose proof (filter_split_length (mayRetry s) (queueItems c)). lia.
Qed.

Lemma flushTables_shrinks fullQueue (ts : list TableName) s :
  (forall t, (length (queue (flushTables fullQueue ts s) t)
              <= length (queue s t))%nat)
  /\ (errorCounter s <= errorCounter (flushTables fullQueue ts s))%nat
  /\ (length (written (flushTables fullQueue ts s))
      <= length (written s) + length ts * numOfAttempts env)%nat.
Proof.
  revert s. induction ts as [|t0 ts IH]; intros s.
  - cbn. split_and!; intros; lia.
  - cbn [foldl length].
    destruct (IH (flush upsert env t0 fullQueue s)) as (I1 & I2 & I3).
    destruct (flush_shrinks t0 fullQueue s) as (F1 & F2 & F3).
    destruct (flush_frame upsert env t0 fullQueue s) as (F0 & _).
    split_and!; try lia.
    intros t. specialize (I1 t). destruct (decide (t = t0)) as [->|Hd].
    + lia.
    + rewrite F0 in I1 by exact Hd. exact I1.
Qed.

(** X16. Whatever the store answers, [shutdown] runs one cycle per table
    and stops: the timer is cancelled, no queue gets longer, the drop
    counter does not go down, and at most eight times [numOfAttempts]
    writes are made.  The same holds for every [flushAll]. *)
Theorem shutdown_runs_one_cycle_per_table s :
  intervalId (shutdown upsert env s) = None
  /\ (forall t, (length (queue (shutdown upsert env s) t)
                 <= length (queue s t))%nat)
  /\ (errorCounter s <= errorCounter (shutdown upsert env s))%nat
  /\ (length (written (shutdown upsert env s))
      <= length (written s) + 8 * numOfAttempts env)%nat
  /\ (forall fullQueue,
        (forall t, (length (queue (flushAll upsert env fullQueue s) t)
                    <= length (queue s t))%nat)
        /\ (errorCounter s <= errorCounter (flushAll upsert env fullQueue s))%nat
        /\ (length (written (flushAll upsert env fullQueue s))
            <= length (written s) + 8 * numOfAttempts env)%nat
        /\ requestCounter (flushAll upsert env fullQueue s)
           = S (requestCounter s)).
Proof.
  destruct (shutdown_unfold s) as (s1 & -> & Hi & Hq & _ & He & Hw).
  assert (Hframe : forall fullQueue s0 s0',
            queue s0' = queue s0 -> errorCounter s0' = errorCounter s0 ->
            written s0' = written s0 ->
            (forall t, (length (queue (flushTables fullQueue allTables s0') t)
                        <= length (queue s0 t))%nat)
            /\ (errorCounter s0
                <= errorCounter (flushTables fullQueue allTables s0'))%nat
            /\ (length (written (flushTables fullQueue allTables s0'))
                <= length (written s0) + 8 * numOfAttempts env)%nat).
  { intros fullQueue s0 s0' E1 E2 E3.
    destruct (flushTables_shrinks fullQueue allTables s0') as (H1 & H2 & H3).
    rewrite E1, E2, E3 in *.
    change (length allTables) with 8%nat in H3. split_and!; assumption. }
  split_and!.
  - destruct (flushTables_frame true allTables (incrementRequest s1))
      as (_ & _ & _ & -> & _).
    exact Hi.
  - apply (Hframe true s (incrementRequest s1)); assumption.
  - apply (Hframe true s (incrementRequest s1)); assumption.
  - apply (Hframe true s (incrementRequest s1)); assumption.
  - intros fullQueue. rewrite flushAll_unfold.
    destruct (Hframe fullQueue s (incrementRequest s) eq_refl eq_refl eq_refl)
      as (H1 & H2 & H3).
    destruct (flushTables_frame fullQueue allTables (incrementRequest s))
      as (_ & _ & _ & _ & _ & H6 & _).
    split_and!; [exact H1 | exact H2 | exact H3 | exact H6].
Qed.

End AllTablesFacts.

(** ** Cycles that retry *)

Section RetryFacts.
Import JS ErrorClassifier RecordCodec BatchWriter.

Context {World : Type}.
Variable upsert : TableName -> RecordInsert -> World -> World * option Value.
Variable env : Env.

Implicit Types (s : Writer World) (c : Cycle World) (t : TableName).

Lemma attemptLoop_exhausted t r :
  forall a c,
    alwaysRetryable upsert t (payload c) ->
    let out := attemptLoop upsert t (S r) a c in
    (exists e, out.1 = Rejected e /\ isRetryableError e = true)
    /\ queueItems out.2 = queueItems c
    /\ recordsToWrite out.2 = recordsToWrite c
    /\ hasBeenTruncated out.2 = hasBeenTruncated c
    /\ heap (writer out.2) = heap (writer c)
    /\ queue (writer out.2) = queue (writer c)
    /\ written (writer out.2)
       = (written (writer c) ++ replicate (S r) (t, payload c))%list
    /\ errorCounter (writer out.2) = errorCounter (writer c)
    /\ maxAttempts (writer out.2) = maxAttempts (writer c).
Proof.
  induction r as [|r IH]; intros a c Hall; cbv zeta;
    destruct (Hall (world (writer c))) as (e & He & Hr);
    assert (E : (request upsert t c).1 = Some e)
      by (rewrite request_fst; exact He);
    rewrite (attemptLoop_rejected upsert _ _ _ _ e E); cbv zeta;
    rewrite retry_retryable by exact Hr; cbn [fst snd negb orb Nat.eqb];
    rewrite request_snd.
  - cbn. split_and!; try reflexivity. now exists e.
  - match goal with |- context [attemptLoop upsert t (S r) (S a) ?c2] =>
      destruct (IH (S a) c2) as (H1 & H2 & H3 & H4 & H5 & H6 & H7 & H8 & H9);
        [exact Hall|]
    end.
    rewrite H2, H3, H4, H5, H6, H7, H8, H9. cbn.
    split_and!; try reflexivity; [exact H1|].
    unfold payload. cbn. now rewrite <- app_assoc.
Qed.

(** X17. When every write of the batch throws a retryable error, the
    cycle writes the same records [numOfAttempts] times and gives up:
    nothing is split or truncated, and the whole batch goes to the catch
    block, which appends the items that may be retried, each with one
    more attempt, behind what was not pulled and counts the others as
    dropped. *)
Theorem retries_run_out t fullQueue s :
  queue s t <> [] ->
  let n := deleteCount fullQueue s (queue s t) in
  let pulled := take n (queue s t) in
  let records := deref (heap s) (map data pulled) in
  alwaysRetryable upsert t records ->
  let s' := flush upsert env t fullQueue s in
  written s' = (written s ++ replicate (numOfAttempts env) (t, records))%list
  /\ queue s' t
     = (drop n (queue s t) ++ map requeued (List.filter (mayRetry s) pulled))%list
  /\ errorCounter s'
     = (errorCounter s
        + length (List.filter (fun i => negb (mayRetry s i)) pulled))%nat
  /\ heap s' = heap s.
Proof.
  intros Hne n pulled records Hall. cbv zeta.
  rewrite flush_nonempty by exact Hne. unfold backOff.
  pose proof (numOfAttempts_pos env) as Hpos.
  destruct (numOfAttempts env) as [|m]; [lia|].
  destruct (attemptLoop_exhausted t m 0 (startCycle t fullQueue s) Hall)
    as ((e & He & _) & H2 & _ & _ & H5 & H6 & H7 & H8 & H9).
  destruct (attemptLoop upsert t (S m) 0 _) as [out c]. cbn [fst snd] in *. subst out.
  destruct (requeueOrDrop_spec upsert t (queueItems c) (writer c))
    as (R1 & R2 & _ & _ & _ & R6 & _ & R8 & _).
  assert (Hmr : mayRetry (writer c) = mayRetry s)
    by (unfold mayRetry; now rewrite H9).
  rewrite R1, R2, R6, R8, H2, H5, H6, H7, H8, Hmr. cbn.
  rewrite decide_True by reflexivity. repeat split; reflexivity.
Qed.

Lemma deref_truncateAll (refs : list Ref) (h : Heap) :
  deref (truncateAll refs h).1 refs = map truncatedFields (deref h refs).
Proof.
  unfold deref.
  assert (H : forall l, l ∈ refs ->
            (truncateAll refs h).1 !! l = truncatedFields <$> h !! l).
  { intros l Hl. rewrite truncateAll_lookup. now rewrite decide_True. }
  generalize dependent (truncateAll refs h).1. intros h' H.
  induction refs as [|r refs IH]; [reflexivity|].
  cbn [omap list_omap]. rewrite (H r) by apply list_elem_of_here.
  rewrite IH by (intros l Hl; apply H; now apply list_elem_of_further).
  destruct (h !! r); reflexivity.
Qed.

(** X18. When the first write of a batch is rejected as too large and
    the write of the truncated records is accepted, with at least two
    attempts allowed, the cycle makes exactly these two writes - the
    records as they were, then each of them truncated - and ends well:
    the queue keeps what was not pulled, nothing is dropped, and the heap
    holds the truncated records. *)
Theorem truncate_then_accept t fullQueue s e :
  queue s t <> [] ->
  (2 <= numOfAttempts env)%nat ->
  let n := deleteCount fullQueue s (queue s t) in
  let refs := map data (take n (queue s t)) in
  let records := deref (heap s) refs in
  let first := writeToClickhouse upsert t records (world s) in
  first.2 = Some e ->
  classify e = OversizedPayload ->
  (writeToClickhouse upsert t (map truncatedFields records) first.1).2 = None ->
  let s' := flush upsert env t fullQueue s in
  written s'
  = (written s ++ [(t, records); (t, map truncatedFields records)])%list
  /\ queue s' t = drop n (queue s t)
  /\ errorCounter s' = errorCounter s
  /\ truncateRetries s' = S (truncateRetries s)
  /\ forall l,
       heap s' !! l =
       if decide (l ∈ refs) then truncatedFields <$> heap s !! l
       else heap s !! l.
Proof.
  intros Hne H2 n refs records first He Hc Hok. cbv zeta.
  rewrite flush_nonempty by exact Hne. unfold backOff.
  destruct (numOfAttempts env) as [|[|m]]; [lia | lia |].
  set (c0 := startCycle t fullQueue s).
  assert (E : (request upsert t c0).1 = Some e).
  { rewrite request_fst. exact He. }
  rewrite (attemptLoop_rejected upsert _ _ _ _ e E). cbv zeta.
  rewrite retry_oversized_first by (try exact Hc; now rewrite request_snd).
  cbn [fst snd negb orb Nat.eqb]. rewrite request_snd.
  cbn [queueItems recordsToWrite writer heap logWrite setWorld].
  match goal with |- context [attemptLoop upsert t (S m) 1 ?cc] =>
    set (c1 := cc)
  end.
  assert (Hp : payload c1 = map truncatedFields records).
  { unfold payload, c1. cbn. apply deref_truncateAll. }
  assert (E1 : (request upsert t c1).1 = None).
  { rewrite request_fst, Hp. exact Hok. }
  rewrite attemptLoop_resolved by exact E1. rewrite request_snd, Hp.
  unfold truncateRetries, c1. cbn.
  rewrite decide_True by reflexivity.
  rewrite List.filter_app, length_app. cbn.
  split_and!; try reflexivity.
  - now rewrite <- app_assoc.
  - lia.
  - intros l. apply truncateAll_lookup.
Qed.

(** *** Runs of enqueues *)

Lemma addToQueue_below t record now s :
  Z.of_nat (length (queue s t)) + 1 < batchSize s ->
  let s' := addToQueue upsert env t record now s in
  queue s' t = (queue s t ++ [mkItem now 1 record])%list
  /\ written s' = written s
  /\ heap s' = heap s
  /\ world s' = world s
  /\ batchSize s' = batchSize s
  /\ errorCounter s' = errorCounter s.
Proof.
  intros Hlt. cbv zeta. unfold addToQueue. rewrite queue_setQueue_eq.
  cbn [batchSize setQueue].
  destruct (_ >=? _) eqn:E.
  - rewrite Z.geb_leb in E. apply Z.leb_le in E.
    rewrite length_app in E. cbn [length] in E. lia.
  - rewrite queue_setQueue_eq. repeat split; reflexivity.
Qed.

Lemma enqueueAll_below t (calls : list (Ref * Z)) :
  forall s,
    Z.of_nat (length (queue s t) + length calls) < batchSize s ->
    let s' := enqueueAll upsert env t calls s in
    queue s' t = (queue s t ++ map enqueued calls)%list
    /\ written s' = written s
    /\ heap s' = heap s
    /\ world s' = world s
    /\ batchSize s' = batchSize s
    /\ errorCounter s' = errorCounter s.
Proof.
  induction calls as [|x calls IH]; intros s Hlt; cbv zeta.
  - cbn. rewrite app_nil_r. repeat split; reflexivity.
  - unfold enqueueAll. cbn [foldl length] in *.
    destruct (addToQueue_below t x.1 x.2 s) as (A1 & A2 & A3 & A4 & A5 & A6); [lia|].
    destruct (IH (addToQueue upsert env t x.1 x.2 s)) as (I1 & I2 & I3 & I4 & I5 & I6).
    { rewrite A1, A5, length_app. cbn [length]. lia. }
    unfold enqueueAll in *. rewrite I1, I2, I3, I4, I5, I6, A1, A2, A3, A4, A5, A6.
    rewrite <- app_assoc. repeat split; reflexivity.
Qed.

(** X19. Enqueues that keep the queue of the table under [batchSize]
    only queue: the items are appended in the order of the calls, each
    with one attempt and the time of its call, and nothing is written,
    dropped or changed in the heap. *)
Theorem enqueues_below_batchSize_only_queue t (calls : list (Ref * Z)) s :
  Z.of_nat (length (queue s t) + length calls) < batchSize s ->
  let s' := enqueueAll upsert env t calls s in
  queue s' t = (queue s t ++ map enqueued calls)%list
  /\ written s' = written s
  /\ heap s' = heap s
  /\ world s' = world s
  /\ errorCounter s' = errorCounter s.
Proof.
  intros Hlt. cbv zeta.
  destruct (enqueueAll_below t calls s Hlt) as (H1 & H2 & H3 & H4 & _ & H6).
  repeat split; assumption.
Qed.

Lemma enqueueAll_app t (a b : list (Ref * Z)) s :
  enqueueAll upsert env t (a ++ b) s
  = enqueueAll upsert env t b (enqueueAll upsert env t a s).
Proof. unfold enqueueAll. apply foldl_app. Qed.

(** The enqueue that fills the batch, with a write that is accepted. *)
Lemma addToQueue_flushes t record now s :
  batchSize s <= Z.of_nat (length (queue s t)) + 1 ->
  let q1 := (queue s t ++ [mkItem now 1 record])%list in
  let b := Z.to_nat (batchSize s) in
  (writeToClickhouse upsert t (deref (heap s) (map data (take b q1))) (world s)).2
  = None ->
  let s' := addToQueue upsert env t record now s in
  queue s' t = drop b q1
  /\ written s' = (written s ++ [(t, deref (heap s) (map data (take b q1)))])%list
  /\ errorCounter s' = errorCounter s
  /\ heap s' = heap s.
Proof.
  intros Hge q1 b Hok. cbv zeta. unfold addToQueue. rewrite queue_setQueue_eq.
  cbn [batchSize setQueue].
  destruct (_ >=? _) eqn:E.
  2:{ rewrite Z.geb_leb in E. apply Z.leb_gt in E.
      rewrite length_app in E. cbn [length] in E. lia. }
  assert (Hne : queue (setQueue t q1 s) t <> []).
  { rewrite queue_setQueue_eq. unfold q1. destruct (queue s t); discriminate. }
  destruct (flush_accepted upsert env t false (setQueue t q1 s) Hne)
    as (_ & H2 & H3 & H4 & H5 & _).
  - unfold deleteCount. rewrite queue_setQueue_eq.
    cbn [heap world setQueue batchSize]. exact Hok.
  - unfold deleteCount in *. rewrite queue_setQueue_eq in *.
    cbn [heap written errorCounter setQueue batchSize] in *.
    fold q1. rewrite H2, H3, H4, H5. repeat split; reflexivity.
Qed.

(** X20. Exactly [batchSize] enqueues into an empty queue, with a store
    that accepts the write: the last call starts the flush, the store gets
    one batch with the records of the calls in their order, and the queue
    is empty again. *)
Theorem a_full_batch_is_written_at_once t (calls : list (Ref * Z)) s :
  queue s t = [] ->
  calls <> [] ->
  Z.of_nat (length calls) = batchSize s ->
  let records := deref (heap s) (map fst calls) in
  (writeToClickhouse upsert t records (world s)).2 = None ->
  let s' := enqueueAll upsert env t calls s in
  queue s' t = []
  /\ written s' = (written s ++ [(t, records)])%list
  /\ errorCounter s' = errorCounter s
  /\ heap s' = heap s.
Proof.
  intros Hq Hne Hlen records Hok. cbv zeta.
  destruct (exists_last Hne) as (init & x & Hcalls).
  pose proof Hlen as Hlen'. rewrite Hcalls, length_app in Hlen'. cbn [length] in Hlen'.
  rewrite Hcalls at 1 2 3 4. rewrite enqueueAll_app.
  destruct (enqueueAll_below t init s) as (E1 & E2 & E3 & E4 & E5 & E6).
  { rewrite Hq. cbn [length]. lia. }
  rewrite Hq in E1. cbn [app] in E1.
  generalize dependent (enqueueAll upsert env t init s). intros s1 E1 E2 E3 E4 E5 E6.
  assert (Hall : take (Z.to_nat (batchSize s1))
                   (queue s1 t ++ [mkItem x.2 1 x.1])
                 = map enqueued calls).
  { rewrite E1, Hcalls, map_app. cbn [map]. apply take_ge.
    rewrite length_app, length_map, E5. cbn [length]. lia. }
  assert (Hpay : deref (heap s1)
                   (map data (take (Z.to_nat (batchSize s1))
                                (queue s1 t ++ [mkItem x.2 1 x.1])))
                 = records).
  { rewrite Hall, E3. unfold records. f_equal.
    rewrite map_map. apply map_ext. now intros [r z]. }
  unfold enqueueAll. cbn [foldl].
  destruct (addToQueue_flushes t x.1 x.2 s1) as (F1 & F2 & F3 & F4).
  - rewrite E1, length_map, E5. lia.
  - rewrite Hpay, E4. exact Hok.
  - rewrite F1, F2, F3, F4, Hpay, E2, E3, E6. split_and!; try reflexivity.
    apply drop_ge. rewrite E1, length_app, length_map, E5. cbn [length]. lia.
Qed.

End RetryFacts.

(** ** Instances of the further properties *)

Section MoreInstances.
Import JS ErrorClassifier RecordCodec BatchWriter Scenario MoreScenarios.

(** X2 on the table [Events]. *)
Lemma clickhouse_only_tables_are_not_written_witness :
  clickhouseOnly Events = true
  /\ queue (flush refusing env23 Events true eventsWriter) Events = []
  /\ errorCounter (flush refusing env23 Events true eventsWriter) = 0%nat.
Proof.
  assert (H : clickhouseOnly Events = true) by reflexivity.
  destruct (clickhouse_only_tables_are_not_written refusing env23 Events true
              eventsWriter H) as (_ & _ & Hq & He & _).
  split_and!; [exact H | | ].
  - rewrite Hq. vm_compute. reflexivity.
  - rewrite He. reflexivity.
Defined.

(** X3 on four items and a batch size of zero. *)
Lemma flush_with_no_batch_size_pulls_nothing_witness :
  batchSize unsizedWriter <= 0
  /\ queue unsizedWriter Traces <> []
  /\ queue (flush refusing env03 Traces false unsizedWriter) Traces
     = queue unsizedWriter Traces.
Proof.
  assert (H1 : batchSize unsizedWriter <= 0) by (vm_compute; discriminate).
  assert (H2 : queue unsizedWriter Traces <> []) by (vm_compute; discriminate).
  split_and!; [exact H1 | exact H2 |].
  exact (proj1 (flush_with_no_batch_size_pulls_nothing refusing env03 Traces
                  unsizedWriter H1 H2)).
Defined.

(** X6 on a refused batch of two out of four items. *)
Lemma flush_accounts_for_every_item_witness :
  queue fullWriter Traces <> []
  /\ (length (queue (flush refusing env23 Traces false fullWriter) Traces)
      <= length (queue fullWriter Traces))%nat.
Proof.
  assert (H : queue fullWriter Traces <> []) by (vm_compute; discriminate).
  split; [exact H|].
  exact (proj2 (proj2 (flush_accounts_for_every_item refusing env23 Traces false
                         fullWriter H))).
Defined.

(** X7 on an accepted batch of two. *)
Lemma accepted_write_carries_the_items_in_flight_witness :
  queue fullWriter Traces <> []
  /\ (backOff accepting env23 Traces (startCycle Traces false fullWriter)).1
     = Resolved
  /\ exists earlier,
       written (flush accepting env23 Traces false fullWriter)
       = (written fullWriter ++ earlier
            ++ [(Traces,
                 deref (heap (flush accepting env23 Traces false fullWriter))
                   (map data
                      (queueItems
                         (backOff accepting env23 Traces
                            (startCycle Traces false fullWriter)).2)))])%list.
Proof.
  assert (H1 : queue fullWriter Traces <> []) by (vm_compute; discriminate).
  assert (H2 : (backOff accepting env23 Traces
                  (startCycle Traces false fullWriter)).1 = Resolved)
    by (vm_compute; reflexivity).
  split_and!; [exact H1 | exact H2 |].
  exact (accepted_write_carries_the_items_in_flight accepting env23 Traces false
           fullWriter H1 H2).
Defined.

(** X8 on one fresh item, three attempts, a store that always refuses. *)
Lemma failing_item_is_dropped_after_maxAttempts_witness :
  clickhouseOnly Traces = false
  /\ alwaysFatal refusing Traces
  /\ queue singleWriter Traces = [fresh 1%positive]
  /\ heap singleWriter !! data (fresh 1%positive) = Some (smallRecord "a")
  /\ attempts (fresh 1%positive) <= maxAttempts singleWriter
  /\ queue (Nat.iter 3 (flush refusing env23 Traces true) singleWriter) Traces = []
  /\ errorCounter (Nat.iter 3 (flush refusing env23 Traces true) singleWriter)
     = 1%nat.
Proof.
  assert (H1 : clickhouseOnly Traces = false) by reflexivity.
  assert (H2 : alwaysFatal refusing Traces).
  { intros r w. exists refused. split; vm_compute; reflexivity. }
  assert (H3 : queue singleWriter Traces = [fresh 1%positive]) by reflexivity.
  assert (H4 : heap singleWriter !! data (fresh 1%positive)
               = Some (smallRecord "a")) by reflexivity.
  assert (H5 : attempts (fresh 1%positive) <= maxAttempts singleWriter)
    by (vm_compute; discriminate).
  destruct (failing_item_is_dropped_after_maxAttempts refusing env23 Traces true
              singleWriter (fresh 1%positive) (smallRecord "a")
              H1 H2 H3 H4 (or_introl eq_refl) H5) as (_ & Hq & He & _).
  split_and!; [exact H1 | exact H2 | exact H3 | exact H4 | exact H5
              | exact Hq | exact He].
Defined.

(** X9 on four items. *)
Lemma handleStringLengthError_keeps_an_item_witness :
  fourItems <> []
  /\ (handleStringLengthError fourItems records).1.1 <> [].
Proof.
  assert (H : fourItems <> []) by discriminate.
  split; [exact H|].
  exact (proj1 (proj2 (handleStringLengthError_keeps_an_item fourItems records H))).
Defined.

(** X10 on a message in capitals, with text around the phrase. *)
Lemma socket_hang_up_anywhere_is_retryable_witness :
  toLowerCase "SOCKET Hang Up" = "socket hang up"
  /\ classify (Object (Some ("Error: " +:+ "SOCKET Hang Up"
                               +:+ " (invalid string length)")))
     = Retryable.
Proof.
  assert (H : toLowerCase "SOCKET Hang Up" = "socket hang up") by reflexivity.
  split; [exact H|].
  exact (proj1 (socket_hang_up_anywhere_is_retryable
                  "Error: " "SOCKET Hang Up" " (invalid string length)"
                  Traces 1 (cycleOf []) H)).
Defined.

(** X11 on a field one character over the threshold. *)
Lemma truncated_field_has_fixed_length_witness :
  len bigField > maxFieldSize
  /\ exists v', truncateField (Some bigField) = Some v' /\ len v' = 512038.
Proof.
  assert (H : len bigField > maxFieldSize) by (rewrite len_bigField; lia).
  split; [exact H|].
  destruct (truncated_field_has_fixed_length bigField H)
    as (Hf & _ & _ & _ & _ & _ & Hl & _).
  eexists. split; [exact Hf | exact Hl].
Defined.

(** X13 on a store that accepts everything. *)
Lemma flushAll_isolates_the_tables_witness :
  accepts accepting Traces
  /\ queue (shutdown accepting env23 fullWriter) Traces = [].
Proof.
  assert (H : accepts accepting Traces) by (intros r w; reflexivity).
  split; [exact H|].
  exact (proj2 (flushAll_isolates_the_tables accepting env23 Traces true
                  fullWriter H)).
Defined.

(** X15 on four fresh items. *)
Lemma attempts_stay_in_range_witness :
  attemptsInRange fullWriter
  /\ attemptsInRange (shutdown refusing env23 fullWriter).
Proof.
  assert (H : attemptsInRange fullWriter).
  { intros t. destruct t; vm_compute; repeat constructor; discriminate. }
  split; [exact H|].
  exact (proj1 (proj2 (proj2 (proj2
           (attempts_stay_in_range refusing env23 fullWriter H))))).
Defined.

(** X17 on a store that always hangs up. *)
Lemma retries_run_out_witness :
  queue fullWriter Traces <> []
  /\ alwaysRetryable hangingUp Traces [smallRecord "a"; smallRecord "b"]
  /\ length (written (flush hangingUp env23 Traces false fullWriter)) = 3%nat.
Proof.
  assert (H1 : queue fullWriter Traces <> []) by (vm_compute; discriminate).
  assert (H2 : alwaysRetryable hangingUp Traces [smallRecord "a"; smallRecord "b"]).
  { intros w. exists socketHangUp. split; vm_compute; reflexivity. }
  split_and!; [exact H1 | exact H2 |].
  rewrite (proj1 (retries_run_out hangingUp env23 Traces false fullWriter H1 H2)).
  vm_compute. reflexivity.
Defined.

(** X18 on a batch of two rejected once as too large. *)
Lemma truncate_then_accept_witness :
  let s := writerOf env23 [Some tooLarge] records fourItems in
  queue s Traces <> []
  /\ (2 <= numOfAttempts env23)%nat
  /\ classify tooLarge = OversizedPayload
  /\ truncateRetries (flush scripted env23 Traces false s) = 1%nat.
Proof.
  cbv zeta.
  set (s := writerOf env23 [Some tooLarge] records fourItems).
  assert (H1 : queue s Traces <> []) by (vm_compute; discriminate).
  assert (H2 : (2 <= numOfAttempts env23)%nat) by (vm_compute; lia).
  assert (H3 : classify tooLarge = OversizedPayload) by (vm_compute; reflexivity).
  split_and!; [exact H1 | exact H2 | exact H3 |].
  destruct (truncate_then_accept scripted env23 Traces false s tooLarge H1 H2)
    as (_ & _ & _ & Ht & _).
  - vm_compute. reflexivity.
  - exact H3.
  - vm_compute. reflexivity.
  - rewrite Ht. reflexivity.
Defined.

(** X19 on one enqueue into an empty queue, batches of two. *)
Lemma enqueues_below_batchSize_only_queue_witness :
  Z.of_nat (length (queue emptyWriter Traces) + length [(1%positive, 10)])
  < batchSize emptyWriter
  /\ queue (enqueueAll refusing env23 Traces [(1%positive, 10)] emptyWriter) Traces
     = [mkItem 10 1 1%positive].
Proof.
  assert (H : Z.of_nat (length (queue emptyWriter Traces)
                        + length [(1%positive, 10)]) < batchSize emptyWriter)
    by (vm_compute; reflexivity).
  split; [exact H|].
  exact (proj1 (enqueues_below_batchSize_only_queue refusing env23 Traces
                  [(1%positive, 10)] emptyWriter H)).
Defined.

(** X20 on two enqueues, batches of two. *)
Lemma a_full_batch_is_written_at_once_witness :
  let calls := [(1%positive, 10); (2%positive, 20)] in
  queue emptyWriter Traces = []
  /\ Z.of_nat (length calls) = batchSize emptyWriter
  /\ written (enqueueAll accepting env23 Traces calls emptyWriter)
     = [(Traces, [smallRecord "a"; smallRecord "b"])].
Proof.
  cbv zeta.
  assert (H1 : queue emptyWriter Traces = []) by reflexivity.
  assert (H2 : [(1%positive, 10); (2%positive, 20)] <> []) by discriminate.
  assert (H3 : Z.of_nat (length [(1%positive, 10); (2%positive, 20)])
               = batchSize emptyWriter) by reflexivity.
  destruct (a_full_batch_is_written_at_once accepting env23 Traces
              [(1%positive, 10); (2%positive, 20)] emptyWriter H1 H2 H3)
    as (_ & Hw & _).
  - vm_compute. reflexivity.
  - split_and!; [exact H1 | exact H3 |]. rewrite Hw. vm_compute. reflexivity.
Defined.

End MoreInstances.
